(** * P-384 field and scalar arithmetic of [crypto/ec/gfp_p384.c]

    A shallow embedding of the limb-level code: the writable memory is a map
    from limb addresses to limbs, the [static const] tables are read-only
    operands, and every function of the C file is a transformer of that
    memory.  Limbs are integers in [0, 2^BN_BITS2); every wrap-around of the
    machine arithmetic is written out with [mod] and [/]. *)

From Stdlib Require Import ZArith List Lia Bool.
Import ListNotations.
Local Open Scope Z_scope.

(** ** Memory of limbs *)

Definition addr := nat.
Definition mem := addr -> Z.

Definition upd (m : mem) (p : addr) (v : Z) : mem :=
  fun q => if Nat.eqb q p then v else m q.

(** [load m p n] is the array of [n] limbs that starts at [p]. *)
Fixpoint load (m : mem) (p : addr) (n : nat) : list Z :=
  match n with
  | O => []
  | S k => m p :: load m (S p) k
  end.

(** [store m p l] writes the limbs [l] from [p] on, lowest address first. *)
Fixpoint store (m : mem) (p : addr) (l : list Z) : mem :=
  match l with
  | [] => m
  | x :: t => store (upd m p x) (S p) t
  end.

(** A [const BN_ULONG *] argument points either into the writable memory or at
    a [static const] table, which no write reaches. *)
Inductive operand :=
| InMem (p : addr)
| InRom (tbl : list Z).

Definition limb (m : mem) (o : operand) (i : nat) : Z :=
  match o with
  | InMem p => m (p + i)%nat
  | InRom tbl => nth i tbl 0
  end.

(** The limbs [i .. i+k-1] of an operand. *)
Fixpoint limbs (m : mem) (o : operand) (i k : nat) : list Z :=
  match k with
  | O => []
  | S k' => limb m o i :: limbs m o (S i) k'
  end.

(** A destination [r] and an [n]-limb operand are compatible when the operand
    is the destination itself, or shares no limb with it. *)
Definition compatible (r : addr) (o : operand) (n : nat) : Prop :=
  match o with
  | InMem p => p = r \/ (p + n <= r)%nat \/ (r + n <= p)%nat
  | InRom _ => True
  end.

Definition mem_of_list (l : list Z) : mem := fun p => nth p l 0.

Section Limbs.

(** The width of a limb in bits ([BN_BITS2]). *)
Variable w : Z.

Definition base : Z := 2 ^ w.

(** The integer a little-limb-endian array stands for. *)
Fixpoint value (l : list Z) : Z :=
  match l with
  | [] => 0
  | x :: t => x + base * value t
  end.

Definition limb_ok (x : Z) : Prop := 0 <= x < base.

Definition wf_mem (m : mem) : Prop := forall p, limb_ok (m p).

Definition limb_okb (x : Z) : bool := (0 <=? x) && (x <? base).

(** Read-only tables hold limbs too. *)
Definition operand_ok (o : operand) : Prop :=
  match o with
  | InMem _ => True
  | InRom tbl => Forall limb_ok tbl
  end.

(** Modelled from the spec: the limb loop of [bn_add_words]: limb [i] of the
    sum is written to [r] once limbs [i] of [a] and [b] and the incoming carry
    have been added. *)
Fixpoint bn_add_words_loop (m : mem) (r : addr) (a b : operand)
         (i k : nat) (c : Z) : Z * mem :=
  match k with
  | O => (c, m)
  | S k' =>
      let t := limb m a i + limb m b i + c in
      bn_add_words_loop (upd m (r + i)%nat (t mod base)) r a b (S i) k' (t / base)
  end.

(** Modelled from the spec: [bn_add_words] of the limb arithmetic library,
    whose body is not part of this excerpt: fixed-width addition with carry
    propagation over [n] limbs, lowest limb first; the carry out of the top
    limb is returned. *)
Definition bn_add_words (m : mem) (r : addr) (a b : operand) (n : nat)
  : Z * mem :=
  bn_add_words_loop m r a b 0 n 0.

(** Modelled from the spec: the limb loop of [bn_sub_words]: limb [i] of the
    difference is written to [r] once limbs [i] of [a] and [b] and the
    incoming borrow have been subtracted. *)
Fixpoint bn_sub_words_loop (m : mem) (r : addr) (a b : operand)
         (i k : nat) (c : Z) : Z * mem :=
  match k with
  | O => (c, m)
  | S k' =>
      let t := limb m a i - limb m b i - c in
      bn_sub_words_loop (upd m (r + i)%nat (t mod base)) r a b (S i) k'
                        (if t <? 0 then 1 else 0)
  end.

(** Modelled from the spec: [bn_sub_words] of the limb arithmetic library:
    fixed-width subtraction with borrow propagation over [n] limbs; the
    borrow out of the top limb is returned. *)
Definition bn_sub_words (m : mem) (r : addr) (a b : operand) (n : nat)
  : Z * mem :=
  bn_sub_words_loop m r a b 0 n 0.

(** Modelled from the spec: [bn_cmp_words] of the limb arithmetic library:
    magnitude comparison of two [n]-limb arrays, most significant limb
    first; negative, zero or positive. *)
Fixpoint bn_cmp_words (m : mem) (a b : operand) (n : nat) : Z :=
  match n with
  | O => 0
  | S k =>
      let aa := limb m a k in
      let bb := limb m b k in
      if aa =? bb then bn_cmp_words m a b k
      else if bb <? aa then 1 else -1
  end.

(** Modelled from the spec: [constant_time_select_size_t] of
    [crypto/internal.h]: selection by bitwise mask arithmetic, [a] under the
    mask and [b] under its complement; the complement of a limb-wide mask is
    [base - 1 - mask]. *)
Definition constant_time_select_size_t (mask a b : Z) : Z :=
  Z.lor (Z.land mask a) (Z.land (base - 1 - mask) b).

(** Modelled from the spec: the two encodings of a condition, the all-ones
    and the all-zeros mask of machine-word width. *)
Definition CONSTTIME_TRUE : Z := base - 1.

Definition CONSTTIME_FALSE : Z := 0.

(** Modelled from the spec: the reduction step of [bn_mul_mont], the
    word-serial Montgomery reduction: one limb of [t] is cleared per round by
    adding the multiple of [n] that the constant [n0] names. *)
Fixpoint mont_reduce (t n n0 : Z) (k : nat) : Z :=
  match k with
  | O => t
  | S k' =>
      let u := ((t mod base) * n0) mod base in
      mont_reduce ((t + u * n) / base) n n0 k'
  end.

(** The [num] limbs of an integer, lowest first. *)
Fixpoint to_limbs (v : Z) (num : nat) : list Z :=
  match num with
  | O => []
  | S k => v mod base :: to_limbs (v / base) k
  end.

(** Modelled from the spec: the value [bn_mul_mont] computes. The generic
    Montgomery multiplication takes (result, operand A, operand B, modulus,
    modulus-specific reduction constant, limb count): the product is reduced
    limb by limb with the low limb of the constant [n0], and the modulus is
    subtracted once at the end if the result is not below it. *)
Definition bn_mul_mont_value (a b n n0 : Z) (num : nat) : Z :=
  let t := mont_reduce (a * b) n n0 num in
  if t <? n then t else t - n.

(** Modelled from the spec: [bn_mul_mont] on limb arrays: the operands and
    the modulus are read as [num] limbs, and the [num] limbs of the result are
    written to [r]. *)
Definition bn_mul_mont (m : mem) (r : addr) (a b n n0 : operand) (num : nat)
  : mem :=
  let va := value (limbs m a 0 num) in
  let vb := value (limbs m b 0 num) in
  let vn := value (limbs m n 0 num) in
  store m r (to_limbs (bn_mul_mont_value va vb vn (limb m n0 0) num) num).

End Limbs.

(** ** The P-384 instance *)

(** The C file is compiled for two limb widths. *)
Inductive word_size := OPENSSL_64_BIT | OPENSSL_32_BIT.

Definition BN_BITS2 (ws : word_size) : Z :=
  match ws with
  | OPENSSL_64_BIT => 64
  | OPENSSL_32_BIT => 32
  end.

(** Modelled from the spec: the macro [P384_LIMBS] of [gfp_internal.h]: the
    number of limbs of an element, fixed by the machine word width so that
    [P384_LIMBS * word_bits] covers 384 bits. *)
Definition P384_LIMBS (ws : word_size) : nat := Z.to_nat (384 / BN_BITS2 ws).

(** Modelled from the spec: the macro [TOBN] of [crypto/bn/internal.h]: a
    64-bit quantity given by its high and low halves, laid out as limbs in
    little-limb-endian order: one limb of 64 bits, or the low half followed by
    the high half. *)
Definition TOBN (ws : word_size) (hi lo : Z) : list Z :=
  match ws with
  | OPENSSL_64_BIT => [Z.lor (Z.shiftl hi 32) lo]
  | OPENSSL_32_BIT => [lo; hi]
  end.

(** Modelled from the spec: the macro [BN_MONT_CTX_N0] of
    [crypto/bn/internal.h]: the limbs of a 64-bit Montgomery reduction
    constant, low limb first. *)
Definition BN_MONT_CTX_N0 (ws : word_size) (hi lo : Z) : list Z := TOBN ws hi lo.

Definition Q (ws : word_size) : list Z :=
  TOBN ws 0x00000000 0xffffffff ++
  TOBN ws 0xffffffff 0x00000000 ++
  TOBN ws 0xffffffff 0xfffffffe ++
  TOBN ws 0xffffffff 0xffffffff ++
  TOBN ws 0xffffffff 0xffffffff ++
  TOBN ws 0xffffffff 0xffffffff.

Definition N (ws : word_size) : list Z :=
  TOBN ws 0xecec196a 0xccc52973 ++
  TOBN ws 0x581a0db2 0x48b0a77a ++
  TOBN ws 0xc7634d81 0xf4372ddf ++
  TOBN ws 0xffffffff 0xffffffff ++
  TOBN ws 0xffffffff 0xffffffff ++
  TOBN ws 0xffffffff 0xffffffff.

Definition Q_N0 (ws : word_size) : list Z := BN_MONT_CTX_N0 ws 0x1 0x1.

Definition N_N0 (ws : word_size) : list Z :=
  BN_MONT_CTX_N0 ws 0x6ed46089 0xe88fdc45.

Fixpoint copy_conditional_loop (w : Z) (m : mem) (r a : addr) (condition : Z)
         (i k : nat) : mem :=
  match k with
  | O => m
  | S k' =>
      copy_conditional_loop w
        (upd m (r + i)%nat
             (constant_time_select_size_t w condition (m (a + i)%nat) (m (r + i)%nat)))
        r a condition (S i) k'
  end.

Definition copy_conditional (ws : word_size) (m : mem) (r a : addr)
           (condition : Z) : mem :=
  copy_conditional_loop (BN_BITS2 ws) m r a condition 0 (P384_LIMBS ws).

Definition elem_mul_mont (ws : word_size) (m : mem) (r a b : addr) : mem :=
  bn_mul_mont (BN_BITS2 ws) m r (InMem a) (InMem b)
              (InRom (Q ws)) (InRom (Q_N0 ws)) (P384_LIMBS ws).

(** The carry of the addition step and the memory it leaves. *)
Definition elem_add_sum (ws : word_size) (m : mem) (r a b : addr) : Z * mem :=
  bn_add_words (BN_BITS2 ws) m r (InMem a) (InMem b) (P384_LIMBS ws).

(** The final [bn_sub_words (r, r, Q, P384_LIMBS)]: its borrow and memory. *)
Definition elem_add_reduce (ws : word_size) (m1 : mem) (r : addr) : Z * mem :=
  bn_sub_words (BN_BITS2 ws) m1 r (InMem r) (InRom (Q ws)) (P384_LIMBS ws).

(** Whether the early [return] is taken, so that nothing is subtracted. *)
Definition elem_add_returns_early (ws : word_size) (carry : Z) (m1 : mem)
           (r : addr) : bool :=
  if carry =? 0 then
    if bn_cmp_words m1 (InMem r) (InRom (Q ws)) (P384_LIMBS ws) <? 0 then true
    else false
  else false.

Definition GFp_p384_elem_add (ws : word_size) (m : mem) (r a b : addr) : mem :=
  let (carry, m1) := elem_add_sum ws m r a b in
  if elem_add_returns_early ws carry m1 r then m1
  else snd (elem_add_reduce ws m1 r).

Definition GFp_p384_elem_mul_mont (ws : word_size) (m : mem) (r a b : addr)
  : mem :=
  elem_mul_mont ws m r a b.

Definition GFp_p384_scalar_mul_mont (ws : word_size) (m : mem)
           (r a b : addr) : mem :=
  bn_mul_mont (BN_BITS2 ws) m r (InMem a) (InMem b)
              (InRom (N ws)) (InRom (N_N0 ws)) (P384_LIMBS ws).

(** ** Reference values *)

(** The P-384 field prime and group order (FIPS 186-4, D.1.2.4). *)
Definition p384_prime : Z := 2 ^ 384 - 2 ^ 128 - 2 ^ 96 + 2 ^ 32 - 1.

Definition p384_order : Z :=
  0xffffffffffffffffffffffffffffffffffffffffffffffffc7634d81f4372ddf581a0db248b0a77aecec196accc52973.

(** The Montgomery radix of a [P384_LIMBS]-limb modulus. *)
Definition mont_R : Z := 2 ^ 384.

(** The inverses of the radix modulo the prime and modulo the order. *)
Definition mont_Rinv_Q : Z :=
  183479889321925461653251752109332205360611897149516305954304919627392402791260477631193651879713439593005062.

Definition mont_Rinv_N : Z :=
  8213155180316830564023772752902517460134849974600554980379995049303147060140144611822562736815346652390458105321745.

(** Modelled from the spec: Montgomery form is the representation of [x] as
    [x * R mod M]; conversion out of it multiplies by the inverse of [R]. *)
Definition to_mont (M x : Z) : Z := (x * mont_R) mod M.

Definition from_mont (M Rinv x : Z) : Z := (x * Rinv) mod M.

(** The element an [Elem] pointer designates. *)
Definition elem (ws : word_size) (m : mem) (p : addr) : list Z :=
  load m p (P384_LIMBS ws).

Definition elem_value (ws : word_size) (m : mem) (p : addr) : Z :=
  value (BN_BITS2 ws) (elem ws m p).

(** Two [Elem] pointers are either the same array or disjoint arrays. *)
Definition elem_compatible (ws : word_size) (r a : addr) : Prop :=
  compatible r (InMem a) (P384_LIMBS ws).

Definition elem_disjoint (ws : word_size) (r a : addr) : Prop :=
  (a + P384_LIMBS ws <= r)%nat \/ (r + P384_LIMBS ws <= a)%nat.

(** A memory that holds the element [x] at address 0 and the element [y]
    right after it; every other limb is zero. *)
Definition two_elems (ws : word_size) (x y : Z) : mem :=
  mem_of_list (to_limbs (BN_BITS2 ws) x (P384_LIMBS ws) ++
               to_limbs (BN_BITS2 ws) y (P384_LIMBS ws)).

(** A memory that holds three elements one after the other, from address 0. *)
Definition three_elems (ws : word_size) (x y z : Z) : mem :=
  mem_of_list (to_limbs (BN_BITS2 ws) x (P384_LIMBS ws) ++
               to_limbs (BN_BITS2 ws) y (P384_LIMBS ws) ++
               to_limbs (BN_BITS2 ws) z (P384_LIMBS ws)).

(** ** Facts on memory *)

Lemma upd_same (m : mem) (p : addr) (v : Z) : upd m p v p = v.
Proof. unfold upd. now rewrite Nat.eqb_refl. Qed.

Lemma upd_other (m : mem) (p q : addr) (v : Z) : q <> p -> upd m p v q = m q.
Proof.
  intros Hne. unfold upd.
  destruct (Nat.eqb_spec q p) as [->|_]; [contradiction|reflexivity].
Qed.

Lemma load_length (m : mem) (n : nat) : forall p, length (load m p n) = n.
Proof. induction n as [|n IH]; simpl; intros p; [reflexivity|now rewrite IH]. Qed.

Lemma load_ext (m m' : mem) (n : nat) :
  forall p,
    (forall q, (p <= q < p + n)%nat -> m' q = m q) ->
    load m' p n = load m p n.
Proof.
  induction n as [|n IH]; simpl; intros p H; [reflexivity|].
  rewrite (H p) by lia. f_equal. apply IH. intros q Hq. apply H. lia.
Qed.

Lemma load_nth (m : mem) (n : nat) :
  forall p i, (i < n)%nat -> nth i (load m p n) 0 = m (p + i)%nat.
Proof.
  induction n as [|n IH]; simpl; intros p i Hi; [lia|].
  destruct i as [|i].
  - now rewrite Nat.add_0_r.
  - rewrite IH by lia. f_equal. lia.
Qed.

Lemma load_pointwise (m m' : mem) (n : nat) :
  forall p q,
    (forall i, (i < n)%nat -> m' (p + i)%nat = m (q + i)%nat) ->
    load m' p n = load m q n.
Proof.
  induction n as [|n IH]; simpl; intros p q H; [reflexivity|].
  f_equal.
  - specialize (H 0%nat ltac:(lia)). now rewrite !Nat.add_0_r in H.
  - apply IH. intros i Hi. specialize (H (S i) ltac:(lia)).
    now rewrite !Nat.add_succ_r in H.
Qed.

Lemma limbs_InMem (m : mem) (p : addr) (k : nat) :
  forall i, limbs m (InMem p) i k = load m (p + i)%nat k.
Proof.
  induction k as [|k IH]; simpl; intros i; [reflexivity|].
  rewrite IH. do 2 f_equal. lia.
Qed.

Lemma limbs_InRom_from (m : mem) (tbl : list Z) :
  forall i pre, length pre = i ->
    limbs m (InRom (pre ++ tbl)) i (length tbl) = tbl.
Proof.
  induction tbl as [|x t IH]; simpl; intros i pre Hi; [reflexivity|].
  f_equal.
  - rewrite app_nth2 by lia. subst i. now rewrite Nat.sub_diag.
  - change (pre ++ x :: t) with (pre ++ [x] ++ t). rewrite app_assoc.
    apply IH. rewrite length_app. simpl. lia.
Qed.

Lemma limbs_InRom (m : mem) (tbl : list Z) :
  limbs m (InRom tbl) 0 (length tbl) = tbl.
Proof. exact (limbs_InRom_from m tbl 0%nat [] eq_refl). Qed.

Lemma limbs_snoc (m : mem) (o : operand) (k : nat) :
  forall i, limbs m o i (S k) = limbs m o i k ++ [limb m o (i + k)].
Proof.
  induction k as [|k IH]; intros i.
  - simpl. now rewrite Nat.add_0_r.
  - change (limbs m o i (S (S k))) with (limb m o i :: limbs m o (S i) (S k)).
    rewrite IH. replace (S i + k)%nat with (i + S k)%nat by lia. reflexivity.
Qed.

Lemma limbs_length (m : mem) (o : operand) (k : nat) :
  forall i, length (limbs m o i k) = k.
Proof. induction k as [|k IH]; simpl; intros i; [reflexivity|now rewrite IH]. Qed.

Lemma limbs_ext (m m' : mem) (o : operand) (k : nat) :
  forall i,
    (forall j, (i <= j < i + k)%nat -> limb m' o j = limb m o j) ->
    limbs m' o i k = limbs m o i k.
Proof.
  induction k as [|k IH]; simpl; intros i H; [reflexivity|].
  rewrite (H i) by lia. f_equal. apply IH. intros j Hj. apply H. lia.
Qed.

(** A write to limb [i] of the destination leaves the limbs above [i] of a
    compatible operand as they were. *)
Lemma compatible_later (r : addr) (o : operand) (n : nat) (m : mem)
      (i j : nat) (v : Z) :
  compatible r o n -> (i < j < n)%nat ->
  limb (upd m (r + i)%nat v) o j = limb m o j.
Proof.
  destruct o as [p|tbl]; simpl; intros Hc Hj; [|reflexivity].
  apply upd_other. lia.
Qed.

Lemma store_frame (l : list Z) :
  forall (m : mem) (p q : addr),
    (q < p \/ p + length l <= q)%nat -> store m p l q = m q.
Proof.
  induction l as [|x t IH]; simpl; intros m p q Hq; [reflexivity|].
  rewrite IH by lia. apply upd_other. lia.
Qed.

Lemma load_store (l : list Z) :
  forall (m : mem) (p : addr), load (store m p l) p (length l) = l.
Proof.
  induction l as [|x t IH]; simpl; intros m p; [reflexivity|].
  rewrite IH. f_equal. rewrite store_frame by lia. apply upd_same.
Qed.

(** ** Facts on limb arithmetic *)

Section LimbFacts.

Variable w : Z.
Hypothesis w_pos : 0 < w.

Local Abbreviation B := (base w).

Lemma base_gt_1 : 1 < B.
Proof.
  unfold base. change 1 with (2 ^ 0). apply Z.pow_lt_mono_r; lia.
Qed.

Lemma base_pow_pos (k : nat) : 0 < B ^ Z.of_nat k.
Proof. apply Z.pow_pos_nonneg; [pose proof base_gt_1|]; lia. Qed.

Lemma base_pow_succ (k : nat) : B ^ Z.of_nat (S k) = B * B ^ Z.of_nat k.
Proof. rewrite Nat2Z.inj_succ. apply Z.pow_succ_r. lia. Qed.

Lemma limb_okb_spec (x : Z) : limb_okb w x = true <-> limb_ok w x.
Proof.
  unfold limb_okb, limb_ok. rewrite andb_true_iff, Z.leb_le, Z.ltb_lt. tauto.
Qed.

Lemma limb_ok_0 : limb_ok w 0.
Proof. unfold limb_ok. pose proof base_gt_1. lia. Qed.

Lemma limb_ok_mod (t : Z) : limb_ok w (t mod B).
Proof. unfold limb_ok. apply Z.mod_pos_bound. pose proof base_gt_1. lia. Qed.

Lemma wf_mem_upd (m : mem) (p : addr) (v : Z) :
  wf_mem w m -> limb_ok w v -> wf_mem w (upd m p v).
Proof.
  intros Hm Hv q. unfold upd. destruct (Nat.eqb q p); [exact Hv|apply Hm].
Qed.

Lemma wf_mem_of_list (l : list Z) :
  forallb (limb_okb w) l = true -> wf_mem w (mem_of_list l).
Proof.
  intros H p. unfold mem_of_list.
  destruct (Nat.lt_ge_cases p (length l)) as [Hp|Hp].
  - apply limb_okb_spec. rewrite forallb_forall in H. apply H.
    now apply nth_In.
  - rewrite nth_overflow by exact Hp. apply limb_ok_0.
Qed.

Lemma wf_mem_load (m : mem) (n : nat) :
  wf_mem w m -> forall p, Forall (limb_ok w) (load m p n).
Proof.
  intros Hm. induction n as [|n IH]; simpl; intros p; constructor; auto.
Qed.

Lemma wf_mem_store (l : list Z) :
  Forall (limb_ok w) l ->
  forall (m : mem) (p : addr), wf_mem w m -> wf_mem w (store m p l).
Proof.
  induction 1 as [|x t Hx Ht IH]; simpl; intros m p Hm; [exact Hm|].
  apply IH. now apply wf_mem_upd.
Qed.

Lemma limb_ok_limb (m : mem) (o : operand) (i : nat) :
  wf_mem w m -> operand_ok w o -> limb_ok w (limb m o i).
Proof.
  destruct o as [p|tbl]; simpl; intros Hm Ho; [apply Hm|].
  destruct (Nat.lt_ge_cases i (length tbl)) as [Hi|Hi].
  - rewrite Forall_forall in Ho. apply Ho. now apply nth_In.
  - rewrite nth_overflow by exact Hi. apply limb_ok_0.
Qed.

Lemma limbs_ok (m : mem) (o : operand) (k : nat) :
  wf_mem w m -> operand_ok w o -> forall i, Forall (limb_ok w) (limbs m o i k).
Proof.
  intros Hm Ho. induction k as [|k IH]; simpl; intros i; constructor; auto.
  now apply limb_ok_limb.
Qed.

Lemma value_bound (l : list Z) :
  Forall (limb_ok w) l -> 0 <= value w l < B ^ Z.of_nat (length l).
Proof.
  induction 1 as [|x t Hx Ht IH].
  - simpl. lia.
  - change (length (x :: t)) with (S (length t)). rewrite base_pow_succ.
    simpl value. unfold limb_ok in Hx. pose proof base_gt_1. nia.
Qed.

Lemma value_app (l1 l2 : list Z) :
  value w (l1 ++ l2) = value w l1 + B ^ Z.of_nat (length l1) * value w l2.
Proof.
  induction l1 as [|x t IH].
  - cbn [app length value]. change (Z.of_nat 0) with 0.
    rewrite Z.pow_0_r. ring.
  - change (length (x :: t)) with (S (length t)). rewrite base_pow_succ.
    cbn [app value]. rewrite IH. ring.
Qed.

Lemma value_repeat_0 (n : nat) : value w (repeat 0 n) = 0.
Proof. induction n as [|n IH]; simpl; [reflexivity|rewrite IH; lia]. Qed.

(** Among arrays of limbs, the value decides the array. *)
Lemma value_inj (l1 : list Z) :
  forall l2, length l1 = length l2 ->
    Forall (limb_ok w) l1 -> Forall (limb_ok w) l2 ->
    value w l1 = value w l2 -> l1 = l2.
Proof.
  induction l1 as [|x t IH]; intros [|y u] Hlen H1 H2 Hv;
    try discriminate; [reflexivity|].
  inversion H1 as [|? ? Hx Ht]; inversion H2 as [|? ? Hy Hu]; subst.
  simpl in Hv. unfold limb_ok in Hx, Hy.
  pose proof base_gt_1 as HB.
  assert (Ht' : value w t = value w u).
  { destruct (Z.lt_trichotomy (value w t) (value w u)) as [Hlt|[Heq|Hgt]];
      [exfalso; nia|exact Heq|exfalso; nia]. }
  f_equal; [rewrite Ht' in Hv; lia|]. apply IH; auto.
Qed.

Lemma to_limbs_length (num : nat) : forall v, length (to_limbs w v num) = num.
Proof. induction num as [|k IH]; simpl; intros v; [reflexivity|now rewrite IH]. Qed.

Lemma to_limbs_ok (num : nat) : forall v, Forall (limb_ok w) (to_limbs w v num).
Proof.
  induction num as [|k IH]; simpl; intros v; constructor; auto.
  apply limb_ok_mod.
Qed.

Lemma value_to_limbs (num : nat) :
  forall v, 0 <= v < B ^ Z.of_nat num -> value w (to_limbs w v num) = v.
Proof.
  pose proof base_gt_1 as HB.
  induction num as [|k IH]; intros v Hv.
  - simpl in *. lia.
  - rewrite base_pow_succ in Hv. simpl.
    rewrite IH.
    + pose proof (Z.div_mod v B). lia.
    + split; [apply Z.div_pos; lia|].
      apply Z.div_lt_upper_bound; lia.
Qed.

End LimbFacts.

(** ** The word loops of the limb arithmetic library *)

Section WordLoops.

Variable w : Z.
Hypothesis w_pos : 0 < w.

Local Abbreviation B := (base w).

Variables (n : nat) (r : addr) (a b : operand).
Hypothesis a_compat : compatible r a n.
Hypothesis b_compat : compatible r b n.
Hypothesis a_ok : operand_ok w a.
Hypothesis b_ok : operand_ok w b.

Lemma bn_add_words_loop_spec (k : nat) :
  forall (m : mem) (i : nat) (c : Z),
    (i + k = n)%nat -> wf_mem w m -> 0 <= c <= 1 ->
    let res := bn_add_words_loop w m r a b i k c in
    wf_mem w (snd res) /\ 0 <= fst res <= 1 /\
    (forall q, (q < r + i \/ r + i + k <= q)%nat -> snd res q = m q) /\
    value w (load (snd res) (r + i)%nat k) + fst res * B ^ Z.of_nat k =
    value w (limbs m a i k) + value w (limbs m b i k) + c.
Proof.
  pose proof (base_gt_1 w w_pos) as HB.
  induction k as [|k IH]; intros m i c Hik Hm Hc.
  - cbn [bn_add_words_loop fst snd load limbs value].
    change (Z.of_nat 0) with 0. rewrite Z.pow_0_r.
    split; [exact Hm|]. split; [lia|]. split; [reflexivity|lia].
  - cbn [bn_add_words_loop].
    pose proof (limb_ok_limb w w_pos m a i Hm a_ok) as Ha.
    pose proof (limb_ok_limb w w_pos m b i Hm b_ok) as Hb.
    unfold limb_ok in Ha, Hb.
    set (t := limb m a i + limb m b i + c) in *.
    assert (Ht : 0 <= t / B <= 1).
    { split; [apply Z.div_pos; lia|].
      apply Z.lt_succ_r. apply Z.div_lt_upper_bound; lia. }
    specialize (IH (upd m (r + i)%nat (t mod B)) (S i) (t / B)
                   ltac:(lia)
                   (wf_mem_upd w m _ _ Hm (limb_ok_mod w w_pos t)) Ht).
    cbv zeta in IH. destruct IH as (Hwf & Hc' & Hfr & Hval).
    set (res := bn_add_words_loop w _ r a b (S i) k (t / B)) in *.
    cbv zeta. split; [exact Hwf|]. split; [exact Hc'|]. split.
    + intros q Hq. rewrite Hfr by lia. apply upd_other. lia.
    + rewrite base_pow_succ by exact w_pos. cbn [load limbs value].
      rewrite (Hfr (r + i)%nat) by lia. rewrite upd_same.
      rewrite <- Nat.add_succ_r.
      rewrite (limbs_ext m _ a k (S i)) in Hval
        by (intros j Hj; apply (compatible_later r a n); [exact a_compat|lia]).
      rewrite (limbs_ext m _ b k (S i)) in Hval
        by (intros j Hj; apply (compatible_later r b n); [exact b_compat|lia]).
      pose proof (Z.div_mod t B ltac:(lia)) as Hdm.
      unfold t in Hdm at 1. nia.
Qed.

Lemma bn_sub_words_loop_spec (k : nat) :
  forall (m : mem) (i : nat) (c : Z),
    (i + k = n)%nat -> wf_mem w m -> 0 <= c <= 1 ->
    let res := bn_sub_words_loop w m r a b i k c in
    wf_mem w (snd res) /\ 0 <= fst res <= 1 /\
    (forall q, (q < r + i \/ r + i + k <= q)%nat -> snd res q = m q) /\
    value w (load (snd res) (r + i)%nat k) - fst res * B ^ Z.of_nat k =
    value w (limbs m a i k) - value w (limbs m b i k) - c.
Proof.
  pose proof (base_gt_1 w w_pos) as HB.
  induction k as [|k IH]; intros m i c Hik Hm Hc.
  - cbn [bn_sub_words_loop fst snd load limbs value].
    change (Z.of_nat 0) with 0. rewrite Z.pow_0_r.
    split; [exact Hm|]. split; [lia|]. split; [reflexivity|lia].
  - cbn [bn_sub_words_loop].
    pose proof (limb_ok_limb w w_pos m a i Hm a_ok) as Ha.
    pose proof (limb_ok_limb w w_pos m b i Hm b_ok) as Hb.
    unfold limb_ok in Ha, Hb.
    set (t := limb m a i - limb m b i - c) in *.
    set (bw := if t <? 0 then 1 else 0).
    assert (Hbw : 0 <= bw <= 1 /\ t mod B = t + B * bw).
    { unfold bw. destruct (Z.ltb_spec t 0) as [Hneg|Hpos].
      - split; [lia|].
        symmetry. apply (Z.mod_unique t B (-1)); lia.
      - split; [lia|]. rewrite Z.mod_small; lia. }
    destruct Hbw as [Hbw Hmod].
    specialize (IH (upd m (r + i)%nat (t mod B)) (S i) bw
                   ltac:(lia)
                   (wf_mem_upd w m _ _ Hm (limb_ok_mod w w_pos t)) Hbw).
    cbv zeta in IH. destruct IH as (Hwf & Hc' & Hfr & Hval).
    set (res := bn_sub_words_loop w _ r a b (S i) k bw) in *.
    cbv zeta. split; [exact Hwf|]. split; [exact Hc'|]. split.
    + intros q Hq. rewrite Hfr by lia. apply upd_other. lia.
    + rewrite base_pow_succ by exact w_pos. cbn [load limbs value].
      rewrite (Hfr (r + i)%nat) by lia. rewrite upd_same.
      rewrite <- Nat.add_succ_r.
      rewrite (limbs_ext m _ a k (S i)) in Hval
        by (intros j Hj; apply (compatible_later r a n); [exact a_compat|lia]).
      rewrite (limbs_ext m _ b k (S i)) in Hval
        by (intros j Hj; apply (compatible_later r b n); [exact b_compat|lia]).
      rewrite Hmod. unfold t. nia.
Qed.

Lemma bn_cmp_words_lt (m : mem) :
  wf_mem w m ->
  forall k,
    bn_cmp_words m a b k < 0 <->
    value w (limbs m a 0 k) < value w (limbs m b 0 k).
Proof.
  intros Hm. induction k as [|k IH].
  - simpl. lia.
  - cbn [bn_cmp_words]. rewrite !limbs_snoc, !value_app, !limbs_length.
    cbn [value Nat.add].
    pose proof (value_bound w w_pos _ (limbs_ok w w_pos m a k Hm a_ok 0%nat)) as Hla.
    pose proof (value_bound w w_pos _ (limbs_ok w w_pos m b k Hm b_ok 0%nat)) as Hlb.
    rewrite limbs_length in Hla, Hlb.
    pose proof (base_pow_pos w w_pos k) as HP.
    pose proof (limb_ok_limb w w_pos m a k Hm a_ok) as Ha.
    pose proof (limb_ok_limb w w_pos m b k Hm b_ok) as Hb.
    unfold limb_ok in Ha, Hb.
    destruct (Z.eqb_spec (limb m a k) (limb m b k)) as [Heq|Hne].
    + rewrite IH, Heq. lia.
    + destruct (Z.ltb_spec (limb m b k) (limb m a k)) as [Hgt|Hle].
      * split; [lia|]. intros Hlt. exfalso. nia.
      * split; [intros _|lia]. nia.
Qed.

End WordLoops.

(** ** Montgomery reduction *)

Section Montgomery.

Variable w : Z.
Hypothesis w_pos : 0 < w.

Local Abbreviation B := (base w).

Variables n n0 : Z.
Hypothesis n_pos : 0 < n.
(** [n0] is the negated inverse of [n] modulo the limb base. *)
Hypothesis n0_neg_inv : (n * n0) mod B = B - 1.

(** One round clears the low limb: the sum is a multiple of the base. *)
Lemma mont_round_exact (t : Z) :
  let u := ((t mod B) * n0) mod B in
  (t + u * n) / B * B = t + u * n.
Proof.
  pose proof (base_gt_1 w w_pos) as HB. cbv zeta.
  set (u := ((t mod B) * n0) mod B).
  set (z := n * n0) in *.
  pose proof (Z.div_mod z B ltac:(lia)) as Hz. rewrite n0_neg_inv in Hz.
  pose proof (Z.div_mod t B ltac:(lia)) as Ht.
  pose proof (Z.div_mod ((t mod B) * n0) B ltac:(lia)) as Hu.
  fold u in Hu.
  set (q := z / B) in *. set (q3 := t / B) in *.
  set (q2 := (t mod B * n0) / B) in *.
  assert (E1 : u * n = (t - B * q3) * z - B * q2 * n).
  { replace u with ((t mod B) * n0 - B * q2) by lia.
    replace (t mod B) with (t - B * q3) by lia. unfold z. ring. }
  assert (E : t + u * n = (t * q + t - q3 * z - q2 * n) * B).
  { rewrite E1, Hz. ring. }
  rewrite E. now rewrite Z.div_mul by lia.
Qed.

Lemma mont_reduce_spec (k : nat) :
  forall t, 0 <= t ->
    exists U, 0 <= U < B ^ Z.of_nat k /\
              mont_reduce w t n n0 k * B ^ Z.of_nat k = t + U * n.
Proof.
  pose proof (base_gt_1 w w_pos) as HB.
  induction k as [|k IH]; intros t Ht.
  - exists 0. cbn [mont_reduce]. change (Z.of_nat 0) with 0.
    rewrite Z.pow_0_r. lia.
  - cbn [mont_reduce].
    pose proof (mont_round_exact t) as Hex. cbv zeta in Hex.
    set (u := ((t mod B) * n0) mod B) in *.
    assert (Hu : 0 <= u < B) by (apply Z.mod_pos_bound; lia).
    set (t1 := (t + u * n) / B) in *.
    assert (Ht1 : 0 <= t1) by (apply Z.div_pos; nia).
    destruct (IH t1 Ht1) as (U' & HU' & Heq).
    exists (u + B * U'). rewrite base_pow_succ by exact w_pos.
    pose proof (base_pow_pos w w_pos k) as HP.
    split; [nia|].
    replace (mont_reduce w t1 n n0 k * (B * B ^ Z.of_nat k))
      with (B * (mont_reduce w t1 n n0 k * B ^ Z.of_nat k)) by ring.
    rewrite Heq. lia.
Qed.

(** The contract of Montgomery multiplication: a reduced result that,
    multiplied by the radix, is congruent to the product. *)
Lemma bn_mul_mont_value_spec (a b : Z) (num : nat) :
  0 <= a < n -> 0 <= b < n -> n < B ^ Z.of_nat num ->
  let r := bn_mul_mont_value w a b n n0 num in
  0 <= r < n /\ (r * B ^ Z.of_nat num) mod n = (a * b) mod n.
Proof.
  intros Ha Hb Hn. cbv zeta. unfold bn_mul_mont_value.
  destruct (mont_reduce_spec num (a * b) ltac:(nia)) as (U & HU & Heq).
  set (t := mont_reduce w (a * b) n n0 num) in *.
  set (R := B ^ Z.of_nat num) in *.
  assert (Hab : a * b < n * R) by nia.
  assert (Ht : 0 <= t < 2 * n) by nia.
  destruct (Z.ltb_spec t n) as [Hlt|Hge].
  - split; [lia|]. rewrite Heq. apply Z_mod_plus_full.
  - split; [lia|].
    replace ((t - n) * R) with (a * b + (U - R) * n) by lia.
    apply Z_mod_plus_full.
Qed.

(** With an inverse of the radix at hand the result is the residue itself. *)
Lemma bn_mul_mont_value_residue (a b Rinv : Z) (num : nat) :
  0 <= a < n -> 0 <= b < n -> n < B ^ Z.of_nat num ->
  (B ^ Z.of_nat num * Rinv) mod n = 1 ->
  bn_mul_mont_value w a b n n0 num = (a * b * Rinv) mod n.
Proof.
  intros Ha Hb Hn HR.
  destruct (bn_mul_mont_value_spec a b num Ha Hb Hn) as [Hr Hc].
  cbv zeta in Hr, Hc.
  set (r := bn_mul_mont_value w a b n n0 num) in *.
  set (R := B ^ Z.of_nat num) in *.
  assert (E : (r * (R * Rinv)) mod n = r).
  { rewrite <- Z.mul_mod_idemp_r by lia. rewrite HR, Z.mul_1_r.
    now apply Z.mod_small. }
  rewrite <- E. replace (r * (R * Rinv)) with (r * R * Rinv) by ring.
  rewrite <- Z.mul_mod_idemp_l by lia. rewrite Hc.
  now rewrite Z.mul_mod_idemp_l by lia.
Qed.

End Montgomery.

(** ** Facts on the P-384 constants *)

Lemma BN_BITS2_pos (ws : word_size) : 0 < BN_BITS2 ws.
Proof. destruct ws; reflexivity. Qed.

Lemma radix_limbs (ws : word_size) :
  base (BN_BITS2 ws) ^ Z.of_nat (P384_LIMBS ws) = mont_R.
Proof. destruct ws; vm_compute; reflexivity. Qed.

Lemma forallb_limb_ok (w : Z) (l : list Z) :
  0 < w -> forallb (limb_okb w) l = true -> Forall (limb_ok w) l.
Proof.
  intros Hw H. apply Forall_forall. intros x Hx.
  apply (limb_okb_spec w). rewrite forallb_forall in H. now apply H.
Qed.

Lemma Q_length (ws : word_size) : length (Q ws) = P384_LIMBS ws.
Proof. destruct ws; reflexivity. Qed.

Lemma N_length (ws : word_size) : length (N ws) = P384_LIMBS ws.
Proof. destruct ws; reflexivity. Qed.

Lemma Q_ok (ws : word_size) : Forall (limb_ok (BN_BITS2 ws)) (Q ws).
Proof.
  apply forallb_limb_ok; [apply BN_BITS2_pos|]. destruct ws; vm_compute; reflexivity.
Qed.

Lemma N_ok (ws : word_size) : Forall (limb_ok (BN_BITS2 ws)) (N ws).
Proof.
  apply forallb_limb_ok; [apply BN_BITS2_pos|]. destruct ws; vm_compute; reflexivity.
Qed.

Lemma Q_value (ws : word_size) : value (BN_BITS2 ws) (Q ws) = p384_prime.
Proof. destruct ws; vm_compute; reflexivity. Qed.

Lemma N_value (ws : word_size) : value (BN_BITS2 ws) (N ws) = p384_order.
Proof. destruct ws; vm_compute; reflexivity. Qed.

Lemma limbs_Q (ws : word_size) (m : mem) :
  limbs m (InRom (Q ws)) 0 (P384_LIMBS ws) = Q ws.
Proof. rewrite <- Q_length. apply limbs_InRom. Qed.

Lemma limbs_N (ws : word_size) (m : mem) :
  limbs m (InRom (N ws)) 0 (P384_LIMBS ws) = N ws.
Proof. rewrite <- N_length. apply limbs_InRom. Qed.

Lemma p384_prime_bounds : 0 < p384_prime < mont_R.
Proof. split; vm_compute; reflexivity. Qed.

Lemma p384_order_bounds : 0 < p384_order < mont_R.
Proof. split; vm_compute; reflexivity. Qed.

Lemma Q_N0_neg_inv (ws : word_size) :
  (p384_prime * nth 0 (Q_N0 ws) 0) mod base (BN_BITS2 ws)
  = base (BN_BITS2 ws) - 1.
Proof. destruct ws; vm_compute; reflexivity. Qed.

Lemma N_N0_neg_inv (ws : word_size) :
  (p384_order * nth 0 (N_N0 ws) 0) mod base (BN_BITS2 ws)
  = base (BN_BITS2 ws) - 1.
Proof. destruct ws; vm_compute; reflexivity. Qed.

Lemma mont_Rinv_Q_inv : (mont_R * mont_Rinv_Q) mod p384_prime = 1.
Proof. vm_compute; reflexivity. Qed.

Lemma mont_Rinv_N_inv : (mont_R * mont_Rinv_N) mod p384_order = 1.
Proof. vm_compute; reflexivity. Qed.

Lemma elem_value_bounds (ws : word_size) (m : mem) (p : addr) :
  wf_mem (BN_BITS2 ws) m -> 0 <= elem_value ws m p < mont_R.
Proof.
  intros Hm. unfold elem_value, elem. rewrite <- (radix_limbs ws).
  pose proof (value_bound _ (BN_BITS2_pos ws) _
                (wf_mem_load _ m (P384_LIMBS ws) Hm p)) as H.
  now rewrite load_length in H.
Qed.

Lemma elem_ok (ws : word_size) (m : mem) (p : addr) :
  wf_mem (BN_BITS2 ws) m -> Forall (limb_ok (BN_BITS2 ws)) (elem ws m p).
Proof. intros Hm. now apply wf_mem_load. Qed.

Lemma elem_length (ws : word_size) (m : mem) (p : addr) :
  length (elem ws m p) = P384_LIMBS ws.
Proof. apply load_length. Qed.

Lemma elem_frame (ws : word_size) (m m' : mem) (r p : addr) :
  (forall q, (q < r \/ r + P384_LIMBS ws <= q)%nat -> m' q = m q) ->
  elem_disjoint ws r p -> elem ws m' p = elem ws m p.
Proof.
  intros Hfr Hd. apply load_ext. intros q Hq. apply Hfr.
  unfold elem_disjoint in Hd. lia.
Qed.

(** ** The steps of [GFp_p384_elem_add] *)

Section ElemAdd.

Variable ws : word_size.

Local Abbreviation w := (BN_BITS2 ws).
Local Abbreviation n := (P384_LIMBS ws).

Lemma elem_add_sum_spec (m : mem) (r a b : addr) :
  wf_mem w m -> elem_compatible ws r a -> elem_compatible ws r b ->
  let res := elem_add_sum ws m r a b in
  wf_mem w (snd res) /\ 0 <= fst res <= 1 /\
  (forall q, (q < r \/ r + n <= q)%nat -> snd res q = m q) /\
  elem_value ws (snd res) r + fst res * mont_R =
  elem_value ws m a + elem_value ws m b.
Proof.
  intros Hm Ha Hb.
  pose proof (bn_add_words_loop_spec w (BN_BITS2_pos ws) n r (InMem a) (InMem b)
                Ha Hb I I n m 0%nat 0 eq_refl Hm ltac:(lia)) as H.
  cbv zeta in H. rewrite !limbs_InMem, !Nat.add_0_r, radix_limbs in H.
  destruct H as (H1 & H2 & H3 & H4). cbv zeta.
  unfold elem_add_sum, bn_add_words, elem_value, elem.
  split; [exact H1|]. split; [exact H2|]. split; [|lia].
  intros q Hq. apply H3. lia.
Qed.

Lemma elem_add_reduce_spec (m1 : mem) (r : addr) :
  wf_mem w m1 ->
  let res := elem_add_reduce ws m1 r in
  wf_mem w (snd res) /\ 0 <= fst res <= 1 /\
  (forall q, (q < r \/ r + n <= q)%nat -> snd res q = m1 q) /\
  elem_value ws (snd res) r - fst res * mont_R =
  elem_value ws m1 r - p384_prime.
Proof.
  intros Hm.
  pose proof (bn_sub_words_loop_spec w (BN_BITS2_pos ws) n r (InMem r)
                (InRom (Q ws)) (or_introl eq_refl) I I (Q_ok ws)
                n m1 0%nat 0 eq_refl Hm ltac:(lia)) as H.
  cbv zeta in H. rewrite limbs_InMem, !Nat.add_0_r, radix_limbs in H.
  rewrite limbs_Q, Q_value in H.
  destruct H as (H1 & H2 & H3 & H4). cbv zeta.
  unfold elem_add_reduce, bn_sub_words, elem_value, elem.
  split; [exact H1|]. split; [exact H2|]. split; [|lia].
  intros q Hq. apply H3. lia.
Qed.

Lemma elem_add_returns_early_spec (carry : Z) (m1 : mem) (r : addr) :
  wf_mem w m1 ->
  elem_add_returns_early ws carry m1 r = true <->
  carry = 0 /\ elem_value ws m1 r < p384_prime.
Proof.
  intros Hm. unfold elem_add_returns_early.
  pose proof (bn_cmp_words_lt w (BN_BITS2_pos ws) (InMem r) (InRom (Q ws))
                I (Q_ok ws) m1 Hm n) as H.
  rewrite limbs_InMem, Nat.add_0_r in H.
  rewrite limbs_Q, Q_value in H.
  fold (elem ws m1 r) in H. fold (elem_value ws m1 r) in H.
  destruct (Z.eqb_spec carry 0) as [Hc|Hc].
  - destruct (Z.ltb_spec (bn_cmp_words m1 (InMem r) (InRom (Q ws)) n) 0);
      split; intros; try tauto; try discriminate; lia.
  - split; [discriminate|tauto].
Qed.

End ElemAdd.

Lemma repeat_0_ok (w : Z) (n : nat) : 0 < w -> Forall (limb_ok w) (repeat 0 n).
Proof.
  intros Hw. apply Forall_forall. intros x Hx.
  apply repeat_spec in Hx. subst x. now apply limb_ok_0.
Qed.

Lemma two_elems_wf (ws : word_size) (x y : Z) :
  wf_mem (BN_BITS2 ws) (two_elems ws x y).
Proof.
  intros p. unfold two_elems, mem_of_list.
  pose proof (BN_BITS2_pos ws) as Hw.
  destruct (Nat.lt_ge_cases p (length (to_limbs (BN_BITS2 ws) x (P384_LIMBS ws) ++
                                       to_limbs (BN_BITS2 ws) y (P384_LIMBS ws))))
    as [Hp|Hp].
  - assert (H : Forall (limb_ok (BN_BITS2 ws))
                       (to_limbs (BN_BITS2 ws) x (P384_LIMBS ws) ++
                        to_limbs (BN_BITS2 ws) y (P384_LIMBS ws))).
    { apply Forall_app. split; now apply to_limbs_ok. }
    rewrite Forall_forall in H. apply H. now apply nth_In.
  - rewrite nth_overflow by exact Hp. now apply limb_ok_0.
Qed.

(** What one run of [GFp_p384_elem_add] does, by the branch it takes. *)
Lemma elem_add_run (ws : word_size) (m : mem) (r a b : addr) :
  wf_mem (BN_BITS2 ws) m ->
  elem_compatible ws r a -> elem_compatible ws r b ->
  elem_value ws m a < p384_prime -> elem_value ws m b < p384_prime ->
  let va := elem_value ws m a in
  let vb := elem_value ws m b in
  let sum := elem_add_sum ws m r a b in
  let red := elem_add_reduce ws (snd sum) r in
  let m' := GFp_p384_elem_add ws m r a b in
  wf_mem (BN_BITS2 ws) m' /\
  (forall q, (q < r \/ r + P384_LIMBS ws <= q)%nat -> m' q = m q) /\
  (elem_add_returns_early ws (fst sum) (snd sum) r = true ->
   m' = snd sum /\ va + vb < p384_prime /\ elem_value ws m' r = va + vb) /\
  (elem_add_returns_early ws (fst sum) (snd sum) r = false ->
   m' = snd red /\ p384_prime <= va + vb /\ fst red = fst sum /\
   elem_value ws m' r = va + vb - p384_prime).
Proof.
  intros Hm Ha Hb Hva Hvb. cbv zeta.
  pose proof (elem_add_sum_spec ws m r a b Hm Ha Hb) as Hs. cbv zeta in Hs.
  unfold GFp_p384_elem_add.
  destruct (elem_add_sum ws m r a b) as [c m1]. cbn [fst snd] in *.
  destruct Hs as (Hwf1 & Hc & Hfr1 & Hsum).
  pose proof (elem_add_reduce_spec ws m1 r Hwf1) as Hr. cbv zeta in Hr.
  destruct Hr as (Hwf2 & Hbw & Hfr2 & Hred).
  pose proof (elem_add_returns_early_spec ws c m1 r Hwf1) as He.
  pose proof (elem_value_bounds ws m a Hm) as Ba.
  pose proof (elem_value_bounds ws m b Hm) as Bb.
  pose proof (elem_value_bounds ws m1 r Hwf1) as B1.
  pose proof (elem_value_bounds ws _ r Hwf2) as B2.
  pose proof p384_prime_bounds as HQ.
  destruct (elem_add_returns_early ws c m1 r).
  - destruct (proj1 He eq_refl) as [Hc0 Hlt].
    split; [exact Hwf1|]. split; [exact Hfr1|].
    split; [intros _|discriminate]. repeat split; lia.
  - assert (Hn : ~ (c = 0 /\ elem_value ws m1 r < p384_prime))
      by (intros H; apply He in H; discriminate).
    split; [exact Hwf2|]. split.
    { intros q Hq. rewrite Hfr2 by exact Hq. now apply Hfr1. }
    split; [discriminate|intros _]. split; [reflexivity|].
    assert (Hcases : (c = 1 /\ fst (elem_add_reduce ws m1 r) = 1) \/
                     (c = 0 /\ fst (elem_add_reduce ws m1 r) = 0)) by nia.
    destruct Hcases as [[-> Hb1]|[-> Hb0]].
    + rewrite Hb1 in *. repeat split; lia.
    + rewrite Hb0 in *. repeat split; lia.
Qed.

(** ** Selection and conditional copy *)

Section Select.

Variable w : Z.
Hypothesis w_pos : 0 < w.

Lemma land_mask_ones (x : Z) :
  limb_ok w x -> Z.land (base w - 1) x = x.
Proof.
  intros Hx. unfold base. replace (2 ^ w - 1) with (Z.ones w)
    by (rewrite Z.ones_equiv; lia).
  rewrite Z.land_comm, Z.land_ones by lia. now apply Z.mod_small.
Qed.

Lemma select_true (x y : Z) :
  limb_ok w x -> constant_time_select_size_t w (CONSTTIME_TRUE w) x y = x.
Proof.
  intros Hx. unfold constant_time_select_size_t, CONSTTIME_TRUE.
  replace (base w - 1 - (base w - 1)) with 0 by lia.
  rewrite Z.land_0_l, Z.lor_0_r. now apply land_mask_ones.
Qed.

Lemma select_false (x y : Z) :
  limb_ok w y -> constant_time_select_size_t w CONSTTIME_FALSE x y = y.
Proof.
  intros Hy. unfold constant_time_select_size_t, CONSTTIME_FALSE.
  rewrite Z.land_0_l, Z.lor_0_l, Z.sub_0_r. now apply land_mask_ones.
Qed.

Variables (n : nat) (r a : addr) (condition : Z).
Hypothesis a_compat : compatible r (InMem a) n.

Lemma copy_conditional_loop_spec (k : nat) :
  forall (m : mem) (i : nat),
    (i + k = n)%nat ->
    let m' := copy_conditional_loop w m r a condition i k in
    (forall q, (q < r + i \/ r + i + k <= q)%nat -> m' q = m q) /\
    (forall j, (i <= j < i + k)%nat ->
       m' (r + j)%nat =
       constant_time_select_size_t w condition (m (a + j)%nat) (m (r + j)%nat)).
Proof.
  induction k as [|k IH]; intros m i Hik; cbv zeta.
  - cbn [copy_conditional_loop]. split; [reflexivity|]. intros j Hj. lia.
  - cbn [copy_conditional_loop].
    set (v := constant_time_select_size_t w condition (m (a + i)%nat) (m (r + i)%nat)).
    destruct (IH (upd m (r + i)%nat v) (S i) ltac:(lia)) as [Hfr Hsel].
    split.
    + intros q Hq. rewrite Hfr by lia. apply upd_other. lia.
    + intros j Hj. destruct (Nat.eq_dec j i) as [->|Hne].
      * rewrite Hfr by lia. apply upd_same.
      * rewrite Hsel by lia. simpl in a_compat.
        rewrite !upd_other by lia. reflexivity.
Qed.

End Select.

(** ** One run of [bn_mul_mont] on elements *)

Lemma bn_mul_mont_run (ws : word_size) (m : mem) (r a b : addr)
      (tbl n0tbl : list Z) (M Rinv : Z) :
  wf_mem (BN_BITS2 ws) m ->
  length tbl = P384_LIMBS ws -> value (BN_BITS2 ws) tbl = M ->
  0 < M < mont_R ->
  (M * nth 0 n0tbl 0) mod base (BN_BITS2 ws) = base (BN_BITS2 ws) - 1 ->
  (mont_R * Rinv) mod M = 1 ->
  elem_value ws m a < M -> elem_value ws m b < M ->
  let m' := bn_mul_mont (BN_BITS2 ws) m r (InMem a) (InMem b)
                        (InRom tbl) (InRom n0tbl) (P384_LIMBS ws) in
  wf_mem (BN_BITS2 ws) m' /\
  (forall q, (q < r \/ r + P384_LIMBS ws <= q)%nat -> m' q = m q) /\
  elem_value ws m' r = (elem_value ws m a * elem_value ws m b * Rinv) mod M.
Proof.
  intros Hm Hlen Hval HM Hn0 HRinv Hva Hvb. cbv zeta.
  pose proof (BN_BITS2_pos ws) as Hw.
  pose proof (elem_value_bounds ws m a Hm) as Ba.
  pose proof (elem_value_bounds ws m b Hm) as Bb.
  unfold bn_mul_mont. rewrite !limbs_InMem, !Nat.add_0_r.
  assert (Htbl : limbs m (InRom tbl) 0 (P384_LIMBS ws) = tbl)
    by (rewrite <- Hlen; apply limbs_InRom).
  rewrite Htbl, Hval. cbn [limb].
  fold (elem ws m a) (elem ws m b). fold (elem_value ws m a) (elem_value ws m b).
  set (va := elem_value ws m a) in *. set (vb := elem_value ws m b) in *.
  rewrite <- (radix_limbs ws) in HM, HRinv.
  pose proof (bn_mul_mont_value_spec (BN_BITS2 ws) Hw M (nth 0 n0tbl 0)
                ltac:(lia) Hn0 va vb (P384_LIMBS ws)
                ltac:(lia) ltac:(lia) ltac:(lia)) as [Hr _].
  pose proof (bn_mul_mont_value_residue (BN_BITS2 ws) Hw M (nth 0 n0tbl 0)
                ltac:(lia) Hn0 va vb Rinv (P384_LIMBS ws)
                ltac:(lia) ltac:(lia) ltac:(lia) HRinv) as Hres.
  cbv zeta in Hr.
  set (v := bn_mul_mont_value (BN_BITS2 ws) va vb M (nth 0 n0tbl 0) (P384_LIMBS ws)) in *.
  pose proof (to_limbs_length (BN_BITS2 ws) (P384_LIMBS ws) v) as HL.
  split; [|split].
  - apply wf_mem_store; [apply to_limbs_ok; exact Hw|exact Hm].
  - intros q Hq. apply store_frame. rewrite HL. exact Hq.
  - unfold elem_value, elem.
    pose proof (load_store (to_limbs (BN_BITS2 ws) v (P384_LIMBS ws)) m r) as HS.
    rewrite HL in HS. rewrite HS.
    rewrite value_to_limbs by (try exact Hw; lia). exact Hres.
Qed.

(** ** Field addition *)

(** The subtraction of [Q] runs exactly when the early return is not taken. *)
Lemma elem_add_subtracts_iff (ws : word_size) (m1 : mem) (r : addr) (carry : Z) :
  wf_mem (BN_BITS2 ws) m1 ->
  negb (carry =? 0) || (p384_prime <=? elem_value ws m1 r) =
  negb (elem_add_returns_early ws carry m1 r).
Proof.
  intros Hm. pose proof (elem_add_returns_early_spec ws carry m1 r Hm) as He.
  destruct (elem_add_returns_early ws carry m1 r).
  - destruct (proj1 He eq_refl) as [-> Hlt]. cbn [Z.eqb negb orb].
    destruct (Z.leb_spec p384_prime (elem_value ws m1 r)); [lia|reflexivity].
  - destruct (Z.eqb_spec carry 0) as [Hc|Hc]; [|reflexivity].
    destruct (Z.leb_spec p384_prime (elem_value ws m1 r)); [reflexivity|].
    assert (false = true) by (apply He; lia). discriminate.
Qed.

(** The value stored in [r] is the residue of the sum. *)
Lemma elem_add_mod (ws : word_size) (m : mem) (r a b : addr) :
  wf_mem (BN_BITS2 ws) m ->
  elem_compatible ws r a -> elem_compatible ws r b ->
  elem_value ws m a < p384_prime -> elem_value ws m b < p384_prime ->
  elem_value ws (GFp_p384_elem_add ws m r a b) r =
  (elem_value ws m a + elem_value ws m b) mod p384_prime.
Proof.
  intros Hm Ha Hb Hva Hvb.
  destruct (elem_add_run ws m r a b Hm Ha Hb Hva Hvb) as (_ & _ & Hearly & Hred).
  pose proof (elem_value_bounds ws m a Hm) as Ba.
  pose proof (elem_value_bounds ws m b Hm) as Bb.
  pose proof p384_prime_bounds as HQ.
  destruct (elem_add_returns_early ws _ _ r).
  - destruct (Hearly eq_refl) as (_ & Hlt & ->). rewrite Z.mod_small; lia.
  - destruct (Hred eq_refl) as (_ & Hge & _ & ->).
    apply (Z.mod_unique _ _ 1); lia.
Qed.

(** C1: for field elements [a, b < Q], [GFp_p384_elem_add (r, a, b)] stores
    [(a + b) mod Q] in [r]; the sum is below [2Q], so [Q] is subtracted at most
    once, exactly when the addition carried out of the limbs or the
    [P384_LIMBS]-limb sum is not below [Q]; and [(Q - 1) + 1] is the all-zero
    element. *)
Theorem GFp_p384_elem_add_correct (ws : word_size) (m : mem) (r a b : addr) :
  wf_mem (BN_BITS2 ws) m ->
  elem_compatible ws r a -> elem_compatible ws r b ->
  elem_value ws m a < p384_prime -> elem_value ws m b < p384_prime ->
  let va := elem_value ws m a in
  let vb := elem_value ws m b in
  let sum := elem_add_sum ws m r a b in
  let subtract :=
    negb (fst sum =? 0) || (p384_prime <=? elem_value ws (snd sum) r) in
  let m' := GFp_p384_elem_add ws m r a b in
  elem_value ws m' r = (va + vb) mod p384_prime /\
  va + vb < 2 * p384_prime /\
  m' = (if subtract then snd (elem_add_reduce ws (snd sum) r) else snd sum) /\
  elem_value ws m' r = (if subtract then va + vb - p384_prime else va + vb) /\
  (va = p384_prime - 1 -> vb = 1 -> elem ws m' r = repeat 0 (P384_LIMBS ws)).
Proof.
  intros Hm Ha Hb Hva Hvb. cbv zeta.
  destruct (elem_add_run ws m r a b Hm Ha Hb Hva Hvb) as (Hwf & _ & Hearly & Hred).
  pose proof (elem_add_sum_spec ws m r a b Hm Ha Hb) as (Hwf1 & _).
  rewrite (elem_add_subtracts_iff ws _ r _ Hwf1).
  pose proof (elem_value_bounds ws m a Hm) as Ba.
  pose proof (elem_value_bounds ws m b Hm) as Bb.
  pose proof p384_prime_bounds as HQ.
  pose proof (elem_add_mod ws m r a b Hm Ha Hb Hva Hvb) as Hmod.
  split; [exact Hmod|]. split; [lia|].
  split; [|split].
  - destruct (elem_add_returns_early ws _ _ r); cbn [negb].
    + now destruct (Hearly eq_refl).
    + now destruct (Hred eq_refl).
  - destruct (elem_add_returns_early ws _ _ r); cbn [negb].
    + now destruct (Hearly eq_refl) as (_ & _ & ->).
    + now destruct (Hred eq_refl) as (_ & _ & _ & ->).
  - intros Ea Eb.
    apply (value_inj (BN_BITS2 ws) (BN_BITS2_pos ws)).
    + now rewrite elem_length, repeat_length.
    + now apply elem_ok.
    + apply repeat_0_ok, BN_BITS2_pos.
    + rewrite value_repeat_0. fold (elem_value ws (GFp_p384_elem_add ws m r a b) r).
      rewrite Hmod, Ea, Eb.
      replace (p384_prime - 1 + 1) with (1 * p384_prime) by lia.
      apply Z.mod_mul. lia.
Qed.

(** The run of C1 on [a = Q - 1], [b = 1] held at addresses 0 and 6, with the
    result at address 12. *)
Lemma GFp_p384_elem_add_correct_witness :
  elem_value OPENSSL_64_BIT
    (GFp_p384_elem_add OPENSSL_64_BIT
       (two_elems OPENSSL_64_BIT (p384_prime - 1) 1) 12%nat 0%nat 6%nat) 12%nat = 0 /\
  elem OPENSSL_64_BIT
    (GFp_p384_elem_add OPENSSL_64_BIT
       (two_elems OPENSSL_64_BIT (p384_prime - 1) 1) 12%nat 0%nat 6%nat) 12%nat = repeat 0 6%nat.
Proof.
  destruct (GFp_p384_elem_add_correct OPENSSL_64_BIT
              (two_elems OPENSSL_64_BIT (p384_prime - 1) 1) 12%nat 0%nat 6%nat)
    as (H1 & _ & _ & _ & H5).
  - apply two_elems_wf.
  - right. left. vm_compute. lia.
  - right. left. vm_compute. lia.
  - vm_compute. reflexivity.
  - vm_compute. reflexivity.
  - split.
    + rewrite H1. vm_compute. reflexivity.
    + apply H5; vm_compute; reflexivity.
Defined.

(** Two [Elem] arguments are whole arrays. A destination that starts inside an
    operand is outside the contract: here [r] starts at the second limb of
    [a = b = 1], and the limbs written are not those of [2]. *)
Remark elem_add_partial_overlap :
  elem_value OPENSSL_64_BIT
    (GFp_p384_elem_add OPENSSL_64_BIT (two_elems OPENSSL_64_BIT 1 0)
                       1%nat 0%nat 0%nat) 1%nat
  <> (1 + 1) mod p384_prime.
Proof. vm_compute. discriminate. Qed.



(** C9: [GFp_p384_elem_add] leaves [a] and [b] as they were when [r] is a
    distinct array, and no limb outside [r] is ever written; when [r] is [a]
    or is [b], the result is still [(a + b) mod Q]. *)
Theorem GFp_p384_elem_add_frame_aliasing (ws : word_size) (m : mem)
        (r a b : addr) :
  wf_mem (BN_BITS2 ws) m ->
  elem_value ws m a < p384_prime -> elem_value ws m b < p384_prime ->
  let va := elem_value ws m a in
  let vb := elem_value ws m b in
  let m' := GFp_p384_elem_add ws m r a b in
  (elem_disjoint ws r a -> elem_disjoint ws r b ->
   elem ws m' a = elem ws m a /\ elem ws m' b = elem ws m b /\
   elem_value ws m' r = (va + vb) mod p384_prime) /\
  (r = a -> elem_compatible ws r b ->
   elem_value ws m' r = (va + vb) mod p384_prime /\
   (elem_disjoint ws r b -> elem ws m' b = elem ws m b)) /\
  (r = b -> elem_compatible ws r a ->
   elem_value ws m' r = (va + vb) mod p384_prime /\
   (elem_disjoint ws r a -> elem ws m' a = elem ws m a)) /\
  (elem_compatible ws r a -> elem_compatible ws r b ->
   forall q, (q < r \/ r + P384_LIMBS ws <= q)%nat -> m' q = m q).
Proof.
  intros Hm Hva Hvb. cbv zeta.
  assert (Hall : elem_compatible ws r a -> elem_compatible ws r b ->
                 (forall q, (q < r \/ r + P384_LIMBS ws <= q)%nat ->
                            GFp_p384_elem_add ws m r a b q = m q) /\
                 elem_value ws (GFp_p384_elem_add ws m r a b) r =
                 (elem_value ws m a + elem_value ws m b) mod p384_prime).
  { intros Ha Hb. split.
    - now destruct (elem_add_run ws m r a b Hm Ha Hb Hva Hvb) as (_ & Hfr & _).
    - now apply elem_add_mod. }
  split; [|split; [|split]].
  - intros Da Db.
    destruct (Hall (or_intror Da) (or_intror Db)) as [Hfr Hv].
    repeat split; [apply (elem_frame ws m _ r a Hfr Da)
                  |apply (elem_frame ws m _ r b Hfr Db)|exact Hv].
  - intros Era Cb.
    destruct (Hall (or_introl (eq_sym Era)) Cb) as [Hfr Hv].
    split; [exact Hv|]. intros Db. apply (elem_frame ws m _ r b Hfr Db).
  - intros Erb Ca.
    destruct (Hall Ca (or_introl (eq_sym Erb))) as [Hfr Hv].
    split; [exact Hv|]. intros Da. apply (elem_frame ws m _ r a Hfr Da).
  - intros Ca Cb. now destruct (Hall Ca Cb).
Qed.

(** The run of C9 with [r] and [a] the same array at address 0 and [b] at
    address 6: [(Q - 1) + 5] is stored over [a] as [4], and [b] is kept. *)
Lemma GFp_p384_elem_add_frame_aliasing_witness :
  elem_value OPENSSL_64_BIT
    (GFp_p384_elem_add OPENSSL_64_BIT
       (two_elems OPENSSL_64_BIT (p384_prime - 1) 5) 0%nat 0%nat 6%nat) 0%nat = 4 /\
  elem OPENSSL_64_BIT
    (GFp_p384_elem_add OPENSSL_64_BIT
       (two_elems OPENSSL_64_BIT (p384_prime - 1) 5) 0%nat 0%nat 6%nat) 6%nat
  = [5; 0; 0; 0; 0; 0].
Proof.
  destruct (GFp_p384_elem_add_frame_aliasing OPENSSL_64_BIT
              (two_elems OPENSSL_64_BIT (p384_prime - 1) 5) 0%nat 0%nat 6%nat)
    as (_ & H2 & _ & _).
  - apply two_elems_wf.
  - vm_compute. reflexivity.
  - vm_compute. reflexivity.
  - destruct H2 as [Hv Hb].
    + reflexivity.
    + right. right. vm_compute. lia.
    + split.
      * rewrite Hv. vm_compute. reflexivity.
      * rewrite Hb; [vm_compute; reflexivity|]. right. vm_compute. lia.
Defined.

(** ** Selection and conditional copy: the claims *)

(** C6: for all limb values [a] and [b], the selector returns [a] under the
    true condition (the all-ones mask) and [b] under the false condition (the
    all-zeros mask). *)
Theorem constant_time_select_size_t_correct (w a b : Z) :
  0 < w -> limb_ok w a -> limb_ok w b ->
  constant_time_select_size_t w (CONSTTIME_TRUE w) a b = a /\
  constant_time_select_size_t w CONSTTIME_FALSE a b = b.
Proof.
  intros Hw Ha Hb. split; [now apply select_true|now apply select_false].
Qed.

Lemma constant_time_select_size_t_correct_witness :
  constant_time_select_size_t 64 (CONSTTIME_TRUE 64) 0xdeadbeef 0x0123456789abcdef
  = 0xdeadbeef /\
  constant_time_select_size_t 64 CONSTTIME_FALSE 0xdeadbeef 0x0123456789abcdef
  = 0x0123456789abcdef.
Proof.
  apply (constant_time_select_size_t_correct 64 0xdeadbeef 0x0123456789abcdef).
  - lia.
  - vm_compute. split; [discriminate|reflexivity].
  - vm_compute. split; [discriminate|reflexivity].
Defined.

(** A condition that is neither mask selects bit by bit: the encoding of the
    condition matters. *)
Remark constant_time_select_size_t_bitwise :
  constant_time_select_size_t 64 1 2 4 = 4 /\
  constant_time_select_size_t 64 1 3 4 = 5.
Proof. split; vm_compute; reflexivity. Qed.

(** Under a mask condition a conditional copy leaves in [dest] either the
    source or what was there. *)
Lemma copy_conditional_under_mask (ws : word_size) (m : mem) (r a : addr)
      (condition : Z) :
  wf_mem (BN_BITS2 ws) m -> elem_compatible ws r a ->
  (condition = CONSTTIME_TRUE (BN_BITS2 ws) ->
   elem ws (copy_conditional ws m r a condition) r = elem ws m a) /\
  (condition = CONSTTIME_FALSE ->
   elem ws (copy_conditional ws m r a condition) r = elem ws m r).
Proof.
  intros Hm Ha.
  destruct (copy_conditional_loop_spec (BN_BITS2 ws) (P384_LIMBS ws) r a condition
              Ha (P384_LIMBS ws) m 0%nat eq_refl) as [Hfr Hsel].
  fold (copy_conditional ws m r a condition) in Hfr, Hsel.
  pose proof (BN_BITS2_pos ws) as Hw.
  split.
  - intros ->. apply load_pointwise. intros i Hi.
    rewrite Hsel by lia. apply select_true; [exact Hw|apply Hm].
  - intros ->. apply load_pointwise. intros i Hi.
    rewrite Hsel by lia. apply select_false; [exact Hw|apply Hm].
Qed.

(** C5: each limb of [dest] becomes [select (condition, src[i], dest[i])];
    under the true condition [dest] ends equal to [src] limb for limb, under
    the false condition [dest] ends as it was. *)
Theorem copy_conditional_correct (ws : word_size) (m : mem) (r a : addr)
        (condition : Z) :
  wf_mem (BN_BITS2 ws) m -> elem_compatible ws r a ->
  let m' := copy_conditional ws m r a condition in
  (forall i, (i < P384_LIMBS ws)%nat ->
     m' (r + i)%nat =
     constant_time_select_size_t (BN_BITS2 ws) condition
                                 (m (a + i)%nat) (m (r + i)%nat)) /\
  (condition = CONSTTIME_TRUE (BN_BITS2 ws) -> elem ws m' r = elem ws m a) /\
  (condition = CONSTTIME_FALSE -> elem ws m' r = elem ws m r) /\
  (forall q, (q < r \/ r + P384_LIMBS ws <= q)%nat -> m' q = m q).
Proof.
  intros Hm Ha. cbv zeta.
  destruct (copy_conditional_loop_spec (BN_BITS2 ws) (P384_LIMBS ws) r a condition
              Ha (P384_LIMBS ws) m 0%nat eq_refl) as [Hfr Hsel].
  fold (copy_conditional ws m r a condition) in Hfr, Hsel.
  pose proof (BN_BITS2_pos ws) as Hw.
  destruct (copy_conditional_under_mask ws m r a condition Hm Ha) as [Ht Hf].
  split; [|split; [|split]].
  - intros i Hi. apply Hsel. lia.
  - exact Ht.
  - exact Hf.
  - intros q Hq. apply Hfr. lia.
Qed.

(** The run of C5 on [dest = 7] at address 6 and [src = Q - 1] at address 0,
    under both conditions. *)
Lemma copy_conditional_correct_witness :
  elem OPENSSL_64_BIT
       (copy_conditional OPENSSL_64_BIT
          (two_elems OPENSSL_64_BIT (p384_prime - 1) 7) 6%nat 0%nat
          (CONSTTIME_TRUE 64)) 6%nat
  = elem OPENSSL_64_BIT (two_elems OPENSSL_64_BIT (p384_prime - 1) 7) 0%nat /\
  elem OPENSSL_64_BIT
       (copy_conditional OPENSSL_64_BIT
          (two_elems OPENSSL_64_BIT (p384_prime - 1) 7) 6%nat 0%nat
          CONSTTIME_FALSE) 6%nat
  = elem OPENSSL_64_BIT (two_elems OPENSSL_64_BIT (p384_prime - 1) 7) 6%nat.
Proof.
  split.
  - apply (copy_conditional_correct OPENSSL_64_BIT
             (two_elems OPENSSL_64_BIT (p384_prime - 1) 7) 6%nat 0%nat
             (CONSTTIME_TRUE 64)).
    + apply two_elems_wf.
    + right. left. vm_compute. lia.
    + reflexivity.
  - apply (copy_conditional_correct OPENSSL_64_BIT
             (two_elems OPENSSL_64_BIT (p384_prime - 1) 7) 6%nat 0%nat
             CONSTTIME_FALSE).
    + apply two_elems_wf.
    + right. left. vm_compute. lia.
    + reflexivity.
Defined.

(** ** The constants *)

(** C7: [Q] is the P-384 field prime and [N] the P-384 group order, each as
    [P384_LIMBS] limbs, least significant first; [Q_N0] and [N_N0] are the
    negated inverses of the low 64 bits of [Q] and [N] modulo [2^64], and
    their low limbs are the negated inverses modulo the limb base. *)
Theorem p384_constants_correct (ws : word_size) :
  let w := BN_BITS2 ws in
  (length (Q ws) = P384_LIMBS ws /\ Forall (limb_ok w) (Q ws)) /\
  (length (N ws) = P384_LIMBS ws /\ Forall (limb_ok w) (N ws)) /\
  value w (Q ws) = 2 ^ 384 - 2 ^ 128 - 2 ^ 96 + 2 ^ 32 - 1 /\
  value w (N ws) = p384_order /\
  p384_order =
    39402006196394479212279040100143613805079739270465446667946905279627659399113263569398956308152294913554433653942643 /\
  (value w (Q ws) * value w (Q_N0 ws)) mod 2 ^ 64 = 2 ^ 64 - 1 /\
  (value w (N ws) * value w (N_N0 ws)) mod 2 ^ 64 = 2 ^ 64 - 1 /\
  (value w (firstn (length (Q_N0 ws)) (Q ws)) * value w (Q_N0 ws)) mod 2 ^ 64
  = 2 ^ 64 - 1 /\
  (value w (firstn (length (N_N0 ws)) (N ws)) * value w (N_N0 ws)) mod 2 ^ 64
  = 2 ^ 64 - 1 /\
  (value w (Q ws) * nth 0 (Q_N0 ws) 0) mod base w = base w - 1 /\
  (value w (N ws) * nth 0 (N_N0 ws) 0) mod base w = base w - 1.
Proof.
  cbv zeta.
  split; [split; [apply Q_length|apply Q_ok]|].
  split; [split; [apply N_length|apply N_ok]|].
  split; [rewrite Q_value; reflexivity|]. split; [apply N_value|].
  destruct ws; vm_compute; repeat split; reflexivity.
Qed.

(** ** Montgomery form *)

Lemma from_mont_to_mont (M Rinv x : Z) :
  0 < M -> (mont_R * Rinv) mod M = 1 ->
  from_mont M Rinv (to_mont M x) = x mod M.
Proof.
  intros HM HR. unfold from_mont, to_mont.
  rewrite Z.mul_mod_idemp_l by lia.
  replace (x * mont_R * Rinv) with (x * (mont_R * Rinv)) by ring.
  rewrite <- Z.mul_mod_idemp_r by lia. now rewrite HR, Z.mul_1_r.
Qed.

Lemma from_mont_mul (M Rinv x y : Z) :
  0 < M ->
  from_mont M Rinv ((x * y * Rinv) mod M) =
  (from_mont M Rinv x * from_mont M Rinv y) mod M.
Proof.
  intros HM. unfold from_mont.
  rewrite Z.mul_mod_idemp_l by lia. rewrite <- Z.mul_mod by lia.
  f_equal. ring.
Qed.

(** ** Montgomery multiplication *)

(** C3: for field elements [a, b < Q] in Montgomery form,
    [GFp_p384_elem_mul_mont (r, a, b)] runs the generic Montgomery
    multiplication with [Q] and [Q_N0] and stores [(a * b * R^-1) mod Q], a
    value below [Q]; converted out of Montgomery form it is the product of the
    plain values modulo [Q]. *)
Theorem GFp_p384_elem_mul_mont_correct (ws : word_size) (m : mem)
        (r a b : addr) :
  wf_mem (BN_BITS2 ws) m ->
  elem_value ws m a < p384_prime -> elem_value ws m b < p384_prime ->
  let va := elem_value ws m a in
  let vb := elem_value ws m b in
  let m' := GFp_p384_elem_mul_mont ws m r a b in
  m' = bn_mul_mont (BN_BITS2 ws) m r (InMem a) (InMem b)
                   (InRom (Q ws)) (InRom (Q_N0 ws)) (P384_LIMBS ws) /\
  (mont_R * mont_Rinv_Q) mod p384_prime = 1 /\
  elem_value ws m' r = (va * vb * mont_Rinv_Q) mod p384_prime /\
  0 <= elem_value ws m' r < p384_prime /\
  from_mont p384_prime mont_Rinv_Q (elem_value ws m' r) =
  (from_mont p384_prime mont_Rinv_Q va * from_mont p384_prime mont_Rinv_Q vb)
    mod p384_prime /\
  (forall a_plain b_plain,
     va = to_mont p384_prime a_plain -> vb = to_mont p384_prime b_plain ->
     from_mont p384_prime mont_Rinv_Q (elem_value ws m' r) =
     (a_plain * b_plain) mod p384_prime).
Proof.
  intros Hm Hva Hvb. cbv zeta.
  pose proof p384_prime_bounds as HQ.
  destruct (bn_mul_mont_run ws m r a b (Q ws) (Q_N0 ws) p384_prime mont_Rinv_Q
              Hm (Q_length ws) (Q_value ws) HQ (Q_N0_neg_inv ws)
              mont_Rinv_Q_inv Hva Hvb) as (_ & _ & Hval).
  fold (elem_mul_mont ws m r a b) in Hval.
  fold (GFp_p384_elem_mul_mont ws m r a b) in Hval.
  split; [reflexivity|]. split; [exact mont_Rinv_Q_inv|].
  split; [exact Hval|].
  split; [rewrite Hval; apply Z.mod_pos_bound; lia|].
  assert (Hfm := from_mont_mul p384_prime mont_Rinv_Q
                   (elem_value ws m a) (elem_value ws m b) ltac:(lia)).
  rewrite <- Hval in Hfm.
  split; [exact Hfm|].
  intros ap bp Ea Eb. rewrite Hfm, Ea, Eb.
  rewrite !from_mont_to_mont by (try exact mont_Rinv_Q_inv; lia).
  now rewrite <- Z.mul_mod by lia.
Qed.

(** The run of C3 on the Montgomery forms of 2 and 3: the result is the
    Montgomery form of 6. *)
Lemma GFp_p384_elem_mul_mont_correct_witness :
  from_mont p384_prime mont_Rinv_Q
    (elem_value OPENSSL_64_BIT
       (GFp_p384_elem_mul_mont OPENSSL_64_BIT
          (two_elems OPENSSL_64_BIT (to_mont p384_prime 2) (to_mont p384_prime 3))
          12%nat 0%nat 6%nat) 12%nat) = 6.
Proof.
  destruct (GFp_p384_elem_mul_mont_correct OPENSSL_64_BIT
              (two_elems OPENSSL_64_BIT (to_mont p384_prime 2) (to_mont p384_prime 3))
              12%nat 0%nat 6%nat) as (_ & _ & _ & _ & _ & H).
  - apply two_elems_wf.
  - vm_compute. reflexivity.
  - vm_compute. reflexivity.
  - rewrite (H 2 3); vm_compute; reflexivity.
Defined.

(** C2: for Montgomery scalars [a, b < N], [GFp_p384_scalar_mul_mont (r, a, b)]
    runs the generic Montgomery multiplication with the group order [N] and
    with [N_N0], which is the reduction constant of [N] and not that of [Q],
    and stores [(a * b * R^-1) mod N], a value below [N]. *)
Theorem GFp_p384_scalar_mul_mont_correct (ws : word_size) (m : mem)
        (r a b : addr) :
  wf_mem (BN_BITS2 ws) m ->
  elem_value ws m a < p384_order -> elem_value ws m b < p384_order ->
  let w := BN_BITS2 ws in
  let va := elem_value ws m a in
  let vb := elem_value ws m b in
  let m' := GFp_p384_scalar_mul_mont ws m r a b in
  m' = bn_mul_mont w m r (InMem a) (InMem b)
                   (InRom (N ws)) (InRom (N_N0 ws)) (P384_LIMBS ws) /\
  value w (N ws) = p384_order /\
  (p384_order * nth 0 (N_N0 ws) 0) mod base w = base w - 1 /\
  (p384_prime * nth 0 (N_N0 ws) 0) mod base w <> base w - 1 /\
  (mont_R * mont_Rinv_N) mod p384_order = 1 /\
  elem_value ws m' r = (va * vb * mont_Rinv_N) mod p384_order /\
  0 <= elem_value ws m' r < p384_order.
Proof.
  intros Hm Hva Hvb. cbv zeta.
  pose proof p384_order_bounds as HN.
  destruct (bn_mul_mont_run ws m r a b (N ws) (N_N0 ws) p384_order mont_Rinv_N
              Hm (N_length ws) (N_value ws) HN (N_N0_neg_inv ws)
              mont_Rinv_N_inv Hva Hvb) as (_ & _ & Hval).
  fold (GFp_p384_scalar_mul_mont ws m r a b) in Hval.
  split; [reflexivity|]. split; [apply N_value|].
  split; [apply N_N0_neg_inv|].
  split; [destruct ws; vm_compute; discriminate|].
  split; [exact mont_Rinv_N_inv|]. split; [exact Hval|].
  rewrite Hval. apply Z.mod_pos_bound. lia.
Qed.

(** The run of C2 on the Montgomery forms of 2 and 3 modulo the order. *)
Lemma GFp_p384_scalar_mul_mont_correct_witness :
  elem_value OPENSSL_64_BIT
    (GFp_p384_scalar_mul_mont OPENSSL_64_BIT
       (two_elems OPENSSL_64_BIT (to_mont p384_order 2) (to_mont p384_order 3))
       12%nat 0%nat 6%nat) 12%nat = to_mont p384_order 6.
Proof.
  destruct (GFp_p384_scalar_mul_mont_correct OPENSSL_64_BIT
              (two_elems OPENSSL_64_BIT (to_mont p384_order 2) (to_mont p384_order 3))
              12%nat 0%nat 6%nat) as (_ & _ & _ & _ & _ & H & _).
  - apply two_elems_wf.
  - vm_compute. reflexivity.
  - vm_compute. reflexivity.
  - rewrite H. vm_compute. reflexivity.
Defined.

(** Pairing the order [N] with the constant of [Q] gives a value that is not
    the Montgomery product: here for [a = b = 1]. *)
Remark bn_mul_mont_wrong_pairing :
  bn_mul_mont_value 64 1 1 p384_order (nth 0 (Q_N0 OPENSSL_64_BIT) 0) 6
  <> (1 * 1 * mont_Rinv_N) mod p384_order /\
  bn_mul_mont_value 64 1 1 p384_order (nth 0 (N_N0 OPENSSL_64_BIT) 0) 6
  = (1 * 1 * mont_Rinv_N) mod p384_order.
Proof. split; vm_compute; [discriminate|reflexivity]. Qed.

(** ** Closure *)

Lemma copy_conditional_wf (ws : word_size) (m : mem) (r a : addr)
      (condition : Z) :
  wf_mem (BN_BITS2 ws) m -> elem_compatible ws r a ->
  condition = CONSTTIME_TRUE (BN_BITS2 ws) \/ condition = CONSTTIME_FALSE ->
  wf_mem (BN_BITS2 ws) (copy_conditional ws m r a condition).
Proof.
  intros Hm Ha Hc q.
  destruct (copy_conditional_loop_spec (BN_BITS2 ws) (P384_LIMBS ws) r a condition
              Ha (P384_LIMBS ws) m 0%nat eq_refl) as [Hfr Hsel].
  fold (copy_conditional ws m r a condition) in Hfr, Hsel.
  pose proof (BN_BITS2_pos ws) as Hw.
  destruct (Nat.lt_ge_cases q r) as [Hlt|Hge].
  - rewrite Hfr by lia. apply Hm.
  - destruct (Nat.lt_ge_cases q (r + P384_LIMBS ws)) as [Hin|Hout].
    + replace q with (r + (q - r))%nat by lia. rewrite Hsel by lia.
      destruct Hc as [->| ->].
      * rewrite select_true; [apply Hm|exact Hw|apply Hm].
      * rewrite select_false; [apply Hm|exact Hw|apply Hm].
    + rewrite Hfr by lia. apply Hm.
Qed.

(** C4: every operation of the file maps inputs below their modulus to an
    output below that modulus, held in [P384_LIMBS] well-formed limbs: the
    sum written by [GFp_p384_elem_add] is below [Q], and so are the products
    below [Q] and [N] and the element a conditional copy leaves. *)
Theorem p384_closure (ws : word_size) (m : mem) (r a b : addr) (condition : Z) :
  wf_mem (BN_BITS2 ws) m ->
  (elem_compatible ws r a -> elem_compatible ws r b ->
   elem_value ws m a < p384_prime -> elem_value ws m b < p384_prime ->
   let m' := GFp_p384_elem_add ws m r a b in
   wf_mem (BN_BITS2 ws) m' /\ 0 <= elem_value ws m' r < p384_prime) /\
  (elem_value ws m a < p384_prime -> elem_value ws m b < p384_prime ->
   let m' := GFp_p384_elem_mul_mont ws m r a b in
   wf_mem (BN_BITS2 ws) m' /\ 0 <= elem_value ws m' r < p384_prime) /\
  (elem_value ws m a < p384_order -> elem_value ws m b < p384_order ->
   let m' := GFp_p384_scalar_mul_mont ws m r a b in
   wf_mem (BN_BITS2 ws) m' /\ 0 <= elem_value ws m' r < p384_order) /\
  (elem_compatible ws r a ->
   condition = CONSTTIME_TRUE (BN_BITS2 ws) \/ condition = CONSTTIME_FALSE ->
   elem_value ws m r < p384_prime -> elem_value ws m a < p384_prime ->
   let m' := copy_conditional ws m r a condition in
   wf_mem (BN_BITS2 ws) m' /\ 0 <= elem_value ws m' r < p384_prime).
Proof.
  intros Hm.
  pose proof p384_prime_bounds as HQ. pose proof p384_order_bounds as HN.
  split; [|split; [|split]].
  - intros Ha Hb Hva Hvb. cbv zeta.
    split; [now destruct (elem_add_run ws m r a b Hm Ha Hb Hva Hvb)|].
    rewrite (elem_add_mod ws m r a b Hm Ha Hb Hva Hvb).
    apply Z.mod_pos_bound. lia.
  - intros Hva Hvb. cbv zeta.
    destruct (bn_mul_mont_run ws m r a b (Q ws) (Q_N0 ws) p384_prime mont_Rinv_Q
                Hm (Q_length ws) (Q_value ws) HQ (Q_N0_neg_inv ws)
                mont_Rinv_Q_inv Hva Hvb) as (Hwf & _ & Hval).
    fold (elem_mul_mont ws m r a b) in Hwf, Hval.
    fold (GFp_p384_elem_mul_mont ws m r a b) in Hwf, Hval.
    split; [exact Hwf|]. rewrite Hval. apply Z.mod_pos_bound. lia.
  - intros Hva Hvb. cbv zeta.
    destruct (bn_mul_mont_run ws m r a b (N ws) (N_N0 ws) p384_order mont_Rinv_N
                Hm (N_length ws) (N_value ws) HN (N_N0_neg_inv ws)
                mont_Rinv_N_inv Hva Hvb) as (Hwf & _ & Hval).
    fold (GFp_p384_scalar_mul_mont ws m r a b) in Hwf, Hval.
    split; [exact Hwf|]. rewrite Hval. apply Z.mod_pos_bound. lia.
  - intros Ha Hc Hvr Hva. cbv zeta.
    split; [now apply copy_conditional_wf|].
    pose proof (copy_conditional_wf ws m r a condition Hm Ha Hc) as Hwf.
    split; [apply (elem_value_bounds ws _ r Hwf)|].
    destruct (copy_conditional_under_mask ws m r a condition Hm Ha)
      as (Ht & Hf).
    unfold elem_value. destruct Hc as [Hc|Hc].
    + rewrite (Ht Hc). exact Hva.
    + rewrite (Hf Hc). exact Hvr.
Qed.

(** The run of C4 on [a = b = Q - 1], the largest inputs, with limbs of 32
    bits: the sum written at address 12 is below [Q]. *)
Lemma p384_closure_witness :
  0 <= elem_value OPENSSL_32_BIT
         (GFp_p384_elem_add OPENSSL_32_BIT
            (two_elems OPENSSL_32_BIT (p384_prime - 1) 0) 12%nat 0%nat 0%nat)
         12%nat
  < p384_prime.
Proof.
  destruct (p384_closure OPENSSL_32_BIT
              (two_elems OPENSSL_32_BIT (p384_prime - 1) 0) 12%nat 0%nat 0%nat 0)
    as (H & _).
  - apply two_elems_wf.
  - apply H.
    + right. left. vm_compute. lia.
    + right. left. vm_compute. lia.
    + vm_compute. reflexivity.
    + vm_compute. reflexivity.
Defined.

(** ** Further properties of the field addition *)

Lemma mem_of_list_wf (w : Z) (l : list Z) :
  0 < w -> Forall (limb_ok w) l -> wf_mem w (mem_of_list l).
Proof.
  intros Hw H p. unfold mem_of_list.
  destruct (Nat.lt_ge_cases p (length l)) as [Hp|Hp].
  - rewrite Forall_forall in H. apply H. now apply nth_In.
  - rewrite nth_overflow by exact Hp. now apply limb_ok_0.
Qed.

Lemma three_elems_wf (ws : word_size) (x y z : Z) :
  wf_mem (BN_BITS2 ws) (three_elems ws x y z).
Proof.
  pose proof (BN_BITS2_pos ws) as Hw.
  apply mem_of_list_wf; [exact Hw|].
  repeat (apply Forall_app; split); now apply to_limbs_ok.
Qed.

Lemma elem_value_frame (ws : word_size) (m m' : mem) (r p : addr) :
  (forall q, (q < r \/ r + P384_LIMBS ws <= q)%nat -> m' q = m q) ->
  elem_disjoint ws r p -> elem_value ws m' p = elem_value ws m p.
Proof.
  intros Hfr Hd. unfold elem_value. now rewrite (elem_frame ws m m' r p Hfr Hd).
Qed.

(** Two memories of limbs whose elements at [p] and [q] have one value hold
    the same limbs there. *)
Lemma elem_eq_of_value (ws : word_size) (m1 m2 : mem) (p q : addr) :
  wf_mem (BN_BITS2 ws) m1 -> wf_mem (BN_BITS2 ws) m2 ->
  elem_value ws m1 p = elem_value ws m2 q -> elem ws m1 p = elem ws m2 q.
Proof.
  intros H1 H2 Hv.
  apply (value_inj (BN_BITS2 ws) (BN_BITS2_pos ws)).
  - now rewrite !elem_length.
  - now apply elem_ok.
  - now apply elem_ok.
  - exact Hv.
Qed.

(** One run of [GFp_p384_elem_add] on any two arrays of limbs, reduced or
    not. *)
Lemma elem_add_total (ws : word_size) (m : mem) (r a b : addr) :
  wf_mem (BN_BITS2 ws) m ->
  elem_compatible ws r a -> elem_compatible ws r b ->
  let s := elem_value ws m a + elem_value ws m b in
  let m' := GFp_p384_elem_add ws m r a b in
  wf_mem (BN_BITS2 ws) m' /\
  (forall q, (q < r \/ r + P384_LIMBS ws <= q)%nat -> m' q = m q) /\
  elem_value ws m' r =
  (if s <? p384_prime then s else (s - p384_prime) mod mont_R).
Proof.
  intros Hm Ha Hb. cbv zeta.
  pose proof (elem_add_sum_spec ws m r a b Hm Ha Hb) as Hs. cbv zeta in Hs.
  unfold GFp_p384_elem_add.
  destruct (elem_add_sum ws m r a b) as [c m1]. cbn [fst snd] in *.
  destruct Hs as (Hwf1 & Hc & Hfr1 & Hsum).
  pose proof (elem_add_reduce_spec ws m1 r Hwf1) as Hr. cbv zeta in Hr.
  destruct Hr as (Hwf2 & Hbw & Hfr2 & Hred).
  pose proof (elem_add_returns_early_spec ws c m1 r Hwf1) as He.
  pose proof (elem_value_bounds ws m a Hm) as Ba.
  pose proof (elem_value_bounds ws m b Hm) as Bb.
  pose proof (elem_value_bounds ws m1 r Hwf1) as B1.
  pose proof (elem_value_bounds ws _ r Hwf2) as B2.
  pose proof p384_prime_bounds as HQ.
  destruct (elem_add_returns_early ws c m1 r).
  - destruct (proj1 He eq_refl) as [Hc0 Hlt].
    split; [exact Hwf1|]. split; [exact Hfr1|]. subst c.
    destruct (Z.ltb_spec (elem_value ws m a + elem_value ws m b) p384_prime); lia.
  - assert (Hn : ~ (c = 0 /\ elem_value ws m1 r < p384_prime))
      by (intros H; apply He in H; discriminate).
    split; [exact Hwf2|]. split.
    { intros q Hq. rewrite Hfr2 by exact Hq. now apply Hfr1. }
    cbn [snd]. set (bw := fst (elem_add_reduce ws m1 r)) in *.
    assert (Hcc : c = 0 \/ c = 1) by lia.
    assert (Hbb : bw = 0 \/ bw = 1) by lia.
    destruct (Z.ltb_spec (elem_value ws m a + elem_value ws m b) p384_prime)
      as [Hlt|Hge].
    + exfalso. apply Hn. destruct Hcc as [-> | ->]; lia.
    + apply (Z.mod_unique _ _ (c - bw)); [lia|].
      destruct Hcc as [-> | ->]; destruct Hbb as [Eb | Eb]; rewrite Eb in *; lia.
Qed.

(** X1: the inputs need not each be below [Q]: as soon as their sum is below
    [2Q], [GFp_p384_elem_add] stores [(a + b) mod Q]. *)
Theorem GFp_p384_elem_add_sum_below_2Q (ws : word_size) (m : mem) (r a b : addr) :
  wf_mem (BN_BITS2 ws) m ->
  elem_compatible ws r a -> elem_compatible ws r b ->
  elem_value ws m a + elem_value ws m b < 2 * p384_prime ->
  let m' := GFp_p384_elem_add ws m r a b in
  elem_value ws m' r = (elem_value ws m a + elem_value ws m b) mod p384_prime /\
  elem_value ws m' r < p384_prime.
Proof.
  intros Hm Ha Hb Hs. cbv zeta.
  destruct (elem_add_total ws m r a b Hm Ha Hb) as (_ & _ & Hv). cbv zeta in Hv.
  pose proof (elem_value_bounds ws m a Hm) as Ba.
  pose proof (elem_value_bounds ws m b Hm) as Bb.
  pose proof p384_prime_bounds as HQ.
  rewrite Hv.
  destruct (Z.ltb_spec (elem_value ws m a + elem_value ws m b) p384_prime)
    as [Hlt|Hge].
  - rewrite Z.mod_small by lia. lia.
  - rewrite (Z.mod_small (_ - p384_prime)) by lia.
    split; [|lia]. apply (Z.mod_unique _ _ 1); lia.
Qed.

(** The run of X1 on [a = Q + 5], which is not reduced, and [b = 3]. *)
Lemma GFp_p384_elem_add_sum_below_2Q_witness :
  elem_value OPENSSL_64_BIT
    (GFp_p384_elem_add OPENSSL_64_BIT
       (two_elems OPENSSL_64_BIT (p384_prime + 5) 3) 12%nat 0%nat 6%nat) 12%nat = 8.
Proof.
  destruct (GFp_p384_elem_add_sum_below_2Q OPENSSL_64_BIT
              (two_elems OPENSSL_64_BIT (p384_prime + 5) 3) 12%nat 0%nat 6%nat)
    as [H _].
  - apply two_elems_wf.
  - right. left. vm_compute. lia.
  - right. left. vm_compute. lia.
  - vm_compute. reflexivity.
  - rewrite H. vm_compute. reflexivity.
Defined.

(** X2: on arbitrary arrays of limbs [GFp_p384_elem_add] subtracts [Q] at most
    once: it stores the sum when that is below [Q], and otherwise the sum minus
    [Q], truncated to [P384_LIMBS] limbs.  So when the sum of two unreduced
    inputs reaches [2Q] (and stays below [Q + 2^384]) the element written is
    not below [Q]. *)
Theorem GFp_p384_elem_add_unreduced (ws : word_size) (m : mem) (r a b : addr) :
  wf_mem (BN_BITS2 ws) m ->
  elem_compatible ws r a -> elem_compatible ws r b ->
  let s := elem_value ws m a + elem_value ws m b in
  let m' := GFp_p384_elem_add ws m r a b in
  elem_value ws m' r =
  (if s <? p384_prime then s else (s - p384_prime) mod mont_R) /\
  (2 * p384_prime <= s -> s < p384_prime + mont_R ->
   elem_value ws m' r = s - p384_prime /\ p384_prime <= elem_value ws m' r).
Proof.
  intros Hm Ha Hb. cbv zeta.
  destruct (elem_add_total ws m r a b Hm Ha Hb) as (_ & _ & Hv). cbv zeta in Hv.
  pose proof p384_prime_bounds as HQ.
  split; [exact Hv|]. intros Hge Hlt. rewrite Hv.
  destruct (Z.ltb_spec (elem_value ws m a + elem_value ws m b) p384_prime);
    [lia|].
  rewrite Z.mod_small by lia. lia.
Qed.

(** The run of X2 on [a = b = Q]: the element written is [Q] itself. *)
Lemma GFp_p384_elem_add_unreduced_witness :
  elem_value OPENSSL_64_BIT
    (GFp_p384_elem_add OPENSSL_64_BIT
       (two_elems OPENSSL_64_BIT p384_prime 0) 6%nat 0%nat 0%nat) 6%nat
  = p384_prime.
Proof.
  destruct (GFp_p384_elem_add_unreduced OPENSSL_64_BIT
              (two_elems OPENSSL_64_BIT p384_prime 0) 6%nat 0%nat 0%nat)
    as [_ H].
  - apply two_elems_wf.
  - right. left. vm_compute. lia.
  - right. left. vm_compute. lia.
  - destruct H as [H _].
    + vm_compute. discriminate.
    + vm_compute. reflexivity.
    + rewrite H. vm_compute. reflexivity.
Defined.

(** The limbs that a run leaves at [r] decide the memory inside [r]. *)
Lemma elem_pointwise (ws : word_size) (m1 m2 : mem) (r q : addr) :
  elem ws m1 r = elem ws m2 r ->
  (r <= q < r + P384_LIMBS ws)%nat -> m1 q = m2 q.
Proof.
  intros He Hq. unfold elem in He.
  replace q with (r + (q - r))%nat by lia.
  rewrite <- (load_nth m1 (P384_LIMBS ws) r (q - r)) by lia.
  rewrite <- (load_nth m2 (P384_LIMBS ws) r (q - r)) by lia.
  now rewrite He.
Qed.

(** X3: [GFp_p384_elem_add] is commutative: swapping the two operands gives
    the same memory, limb for limb, for any two arrays of limbs. *)
Theorem GFp_p384_elem_add_comm (ws : word_size) (m : mem) (r a b : addr) :
  wf_mem (BN_BITS2 ws) m ->
  elem_compatible ws r a -> elem_compatible ws r b ->
  forall q, GFp_p384_elem_add ws m r a b q = GFp_p384_elem_add ws m r b a q.
Proof.
  intros Hm Ha Hb q.
  destruct (elem_add_total ws m r a b Hm Ha Hb) as (W1 & F1 & V1).
  destruct (elem_add_total ws m r b a Hm Hb Ha) as (W2 & F2 & V2).
  cbv zeta in V1, V2.
  destruct (Nat.lt_ge_cases q r) as [Hlt|Hge];
    [rewrite F1, F2 by lia; reflexivity|].
  destruct (Nat.lt_ge_cases q (r + P384_LIMBS ws)) as [Hin|Hout];
    [|rewrite F1, F2 by lia; reflexivity].
  apply (elem_pointwise ws _ _ r q); [|lia].
  apply elem_eq_of_value; try assumption.
  rewrite V1, V2.
  rewrite (Z.add_comm (elem_value ws m b) (elem_value ws m a)). reflexivity.
Qed.

Lemma GFp_p384_elem_add_comm_witness :
  GFp_p384_elem_add OPENSSL_64_BIT (two_elems OPENSSL_64_BIT (p384_prime - 1) 5)
                    12%nat 0%nat 6%nat 12%nat
  = GFp_p384_elem_add OPENSSL_64_BIT (two_elems OPENSSL_64_BIT (p384_prime - 1) 5)
                      12%nat 6%nat 0%nat 12%nat.
Proof.
  apply (GFp_p384_elem_add_comm OPENSSL_64_BIT
           (two_elems OPENSSL_64_BIT (p384_prime - 1) 5) 12%nat 0%nat 6%nat).
  - apply two_elems_wf.
  - right. left. vm_compute. lia.
  - right. left. vm_compute. lia.
Defined.

(** X4: the all-zero element is neutral: adding it to a reduced element, on
    either side, stores the limbs of that element. *)
Theorem GFp_p384_elem_add_zero (ws : word_size) (m : mem) (r a b : addr) :
  wf_mem (BN_BITS2 ws) m ->
  elem_compatible ws r a -> elem_compatible ws r b ->
  elem_value ws m a < p384_prime -> elem_value ws m b = 0 ->
  elem ws (GFp_p384_elem_add ws m r a b) r = elem ws m a /\
  elem ws (GFp_p384_elem_add ws m r b a) r = elem ws m a.
Proof.
  intros Hm Ha Hb Hva Hvb.
  destruct (elem_add_total ws m r a b Hm Ha Hb) as (W1 & _ & V1).
  destruct (elem_add_total ws m r b a Hm Hb Ha) as (W2 & _ & V2).
  cbv zeta in V1, V2.
  pose proof (elem_value_bounds ws m a Hm) as Ba.
  rewrite Hvb in V1, V2. rewrite Z.add_0_r in V1. rewrite Z.add_0_l in V2.
  destruct (Z.ltb_spec (elem_value ws m a) p384_prime); [|lia].
  split; apply elem_eq_of_value; assumption.
Qed.

Lemma GFp_p384_elem_add_zero_witness :
  elem OPENSSL_64_BIT
       (GFp_p384_elem_add OPENSSL_64_BIT
          (two_elems OPENSSL_64_BIT (p384_prime - 1) 0) 12%nat 0%nat 6%nat) 12%nat
  = elem OPENSSL_64_BIT (two_elems OPENSSL_64_BIT (p384_prime - 1) 0) 0%nat.
Proof.
  destruct (GFp_p384_elem_add_zero OPENSSL_64_BIT
              (two_elems OPENSSL_64_BIT (p384_prime - 1) 0) 12%nat 0%nat 6%nat)
    as [H _].
  - apply two_elems_wf.
  - right. left. vm_compute. lia.
  - right. left. vm_compute. lia.
  - vm_compute. reflexivity.
  - vm_compute. reflexivity.
  - exact H.
Defined.

(** X5: [GFp_p384_elem_add] is associative: summing [a], [b], [c] through a
    temporary [t] gives the same limbs in [r] whichever pair is added first,
    and their value is [(a + b + c) mod Q]. *)
Theorem GFp_p384_elem_add_assoc (ws : word_size) (m : mem) (t r a b c : addr) :
  wf_mem (BN_BITS2 ws) m ->
  elem_value ws m a < p384_prime -> elem_value ws m b < p384_prime ->
  elem_value ws m c < p384_prime ->
  elem_disjoint ws t a -> elem_disjoint ws t b -> elem_disjoint ws t c ->
  elem_compatible ws r t -> elem_compatible ws r a -> elem_compatible ws r c ->
  let ab_c := GFp_p384_elem_add ws (GFp_p384_elem_add ws m t a b) r t c in
  let a_bc := GFp_p384_elem_add ws (GFp_p384_elem_add ws m t b c) r a t in
  elem ws ab_c r = elem ws a_bc r /\
  elem_value ws ab_c r =
  (elem_value ws m a + elem_value ws m b + elem_value ws m c) mod p384_prime.
Proof.
  intros Hm Hva Hvb Hvc Dta Dtb Dtc Crt Cra Crc. cbv zeta.
  pose proof p384_prime_bounds as HQ.
  destruct (elem_add_run ws m t a b Hm (or_intror Dta) (or_intror Dtb) Hva Hvb)
    as (W1 & F1 & _).
  pose proof (elem_add_mod ws m t a b Hm (or_intror Dta) (or_intror Dtb) Hva Hvb)
    as V1.
  destruct (elem_add_run ws m t b c Hm (or_intror Dtb) (or_intror Dtc) Hvb Hvc)
    as (W2 & F2 & _).
  pose proof (elem_add_mod ws m t b c Hm (or_intror Dtb) (or_intror Dtc) Hvb Hvc)
    as V2.
  set (m1 := GFp_p384_elem_add ws m t a b) in *.
  set (m2 := GFp_p384_elem_add ws m t b c) in *.
  pose proof (elem_value_frame ws m m1 t c F1 Dtc) as E1.
  pose proof (elem_value_frame ws m m2 t a F2 Dta) as E2.
  assert (B1 : elem_value ws m1 t < p384_prime)
    by (rewrite V1; apply Z.mod_pos_bound; lia).
  assert (B2 : elem_value ws m2 t < p384_prime)
    by (rewrite V2; apply Z.mod_pos_bound; lia).
  assert (L : elem_value ws (GFp_p384_elem_add ws m1 r t c) r =
              (elem_value ws m a + elem_value ws m b + elem_value ws m c)
                mod p384_prime).
  { rewrite (elem_add_mod ws m1 r t c W1 Crt Crc B1) by (rewrite E1; exact Hvc).
    rewrite V1, E1. apply Z.add_mod_idemp_l. lia. }
  assert (R : elem_value ws (GFp_p384_elem_add ws m2 r a t) r =
              (elem_value ws m a + elem_value ws m b + elem_value ws m c)
                mod p384_prime).
  { rewrite (elem_add_mod ws m2 r a t W2 Cra Crt) by (rewrite ?E2; assumption).
    rewrite V2, E2. rewrite Z.add_mod_idemp_r by lia. f_equal. ring. }
  split; [|exact L].
  apply elem_eq_of_value.
  - apply (elem_add_run ws m1 r t c W1 Crt Crc B1). rewrite E1. exact Hvc.
  - apply (elem_add_run ws m2 r a t W2 Cra Crt); [rewrite E2; exact Hva|exact B2].
  - rewrite L, R. reflexivity.
Qed.

(** The run of X5 on [Q - 1], [Q - 2], [Q - 3] at addresses 0, 6, 12, with the
    temporary at 18 and the result at 24. *)
Lemma GFp_p384_elem_add_assoc_witness :
  elem_value OPENSSL_64_BIT
    (GFp_p384_elem_add OPENSSL_64_BIT
       (GFp_p384_elem_add OPENSSL_64_BIT
          (three_elems OPENSSL_64_BIT (p384_prime - 1) (p384_prime - 2)
                       (p384_prime - 3)) 18%nat 0%nat 6%nat)
       24%nat 18%nat 12%nat) 24%nat
  = p384_prime - 6.
Proof.
  destruct (GFp_p384_elem_add_assoc OPENSSL_64_BIT
              (three_elems OPENSSL_64_BIT (p384_prime - 1) (p384_prime - 2)
                           (p384_prime - 3))
              18%nat 24%nat 0%nat 6%nat 12%nat) as [_ H].
  - apply three_elems_wf.
  - vm_compute. reflexivity.
  - vm_compute. reflexivity.
  - vm_compute. reflexivity.
  - left. vm_compute. lia.
  - left. vm_compute. lia.
  - left. vm_compute. lia.
  - right. left. vm_compute. lia.
  - right. left. vm_compute. lia.
  - right. left. vm_compute. lia.
  - rewrite H. vm_compute. reflexivity.
Defined.

(** X6: the limbs [GFp_p384_elem_add] writes depend on the two operands only:
    not on what [r] held, not on the rest of the memory, not on where the
    arrays lie. *)
Theorem GFp_p384_elem_add_operands_only (ws : word_size) (m1 m2 : mem)
        (r1 a1 b1 r2 a2 b2 : addr) :
  wf_mem (BN_BITS2 ws) m1 -> wf_mem (BN_BITS2 ws) m2 ->
  elem_compatible ws r1 a1 -> elem_compatible ws r1 b1 ->
  elem_compatible ws r2 a2 -> elem_compatible ws r2 b2 ->
  elem ws m1 a1 = elem ws m2 a2 -> elem ws m1 b1 = elem ws m2 b2 ->
  elem ws (GFp_p384_elem_add ws m1 r1 a1 b1) r1 =
  elem ws (GFp_p384_elem_add ws m2 r2 a2 b2) r2.
Proof.
  intros W1 W2 Ca1 Cb1 Ca2 Cb2 Ea Eb.
  destruct (elem_add_total ws m1 r1 a1 b1 W1 Ca1 Cb1) as (W1' & _ & V1).
  destruct (elem_add_total ws m2 r2 a2 b2 W2 Ca2 Cb2) as (W2' & _ & V2).
  cbv zeta in V1, V2.
  apply elem_eq_of_value; try assumption.
  rewrite V1, V2. unfold elem_value. rewrite Ea, Eb. reflexivity.
Qed.

(** The run of X6: the operands [Q - 1] and [5], once with the result in a
    fresh array and once with the result over the first operand, in a memory
    that holds a third element. *)
Lemma GFp_p384_elem_add_operands_only_witness :
  elem OPENSSL_64_BIT
       (GFp_p384_elem_add OPENSSL_64_BIT
          (two_elems OPENSSL_64_BIT (p384_prime - 1) 5) 12%nat 0%nat 6%nat) 12%nat
  = elem OPENSSL_64_BIT
         (GFp_p384_elem_add OPENSSL_64_BIT
            (three_elems OPENSSL_64_BIT 9 (p384_prime - 1) 5) 6%nat 6%nat 12%nat)
         6%nat.
Proof.
  apply (GFp_p384_elem_add_operands_only OPENSSL_64_BIT
           (two_elems OPENSSL_64_BIT (p384_prime - 1) 5)
           (three_elems OPENSSL_64_BIT 9 (p384_prime - 1) 5)
           12%nat 0%nat 6%nat 6%nat 6%nat 12%nat).
  - apply two_elems_wf.
  - apply three_elems_wf.
  - right. left. vm_compute. lia.
  - right. left. vm_compute. lia.
  - left. reflexivity.
  - right. right. vm_compute. lia.
  - vm_compute. reflexivity.
  - vm_compute. reflexivity.
Defined.

(** ** Further properties of the conditional copy *)

Section SelectBits.

Variable w : Z.
Hypothesis w_pos : 0 < w.

Lemma limb_testbit_high (x i : Z) :
  limb_ok w x -> w <= i -> Z.testbit x i = false.
Proof.
  intros Hx Hi. rewrite <- (Z.mod_small x (2 ^ w)) by exact Hx.
  apply Z.mod_pow2_bits_high. lia.
Qed.

(** The complement of a limb-wide mask, bit by bit. *)
Lemma mask_complement (c : Z) :
  limb_ok w c -> base w - 1 - c = Z.ldiff (Z.ones w) c.
Proof.
  intros Hc. unfold base. replace (2 ^ w - 1) with (Z.ones w)
    by (rewrite Z.ones_equiv; lia).
  apply Z.sub_nocarry_ldiff.
  rewrite Z.ldiff_ones_r by lia.
  rewrite Z.shiftr_div_pow2 by lia.
  rewrite Z.div_small by exact Hc. apply Z.shiftl_0_l.
Qed.

Lemma select_testbit (c a b i : Z) :
  limb_ok w c -> limb_ok w a -> limb_ok w b -> 0 <= i ->
  Z.testbit (constant_time_select_size_t w c a b) i =
  if i <? w then (if Z.testbit c i then Z.testbit a i else Z.testbit b i)
  else false.
Proof.
  intros Hc Ha Hb Hi. unfold constant_time_select_size_t.
  rewrite (mask_complement c Hc).
  rewrite Z.lor_spec, !Z.land_spec, Z.ldiff_spec.
  destruct (Z.ltb_spec i w) as [Hlt|Hge].
  - rewrite Z.ones_spec_low by lia.
    destruct (Z.testbit c i), (Z.testbit a i), (Z.testbit b i); reflexivity.
  - rewrite (limb_testbit_high a i Ha Hge), (limb_testbit_high b i Hb Hge).
    now rewrite !andb_false_r.
Qed.

Lemma select_limb_ok (c a b : Z) :
  limb_ok w c -> limb_ok w a -> limb_ok w b ->
  limb_ok w (constant_time_select_size_t w c a b).
Proof.
  intros Hc Ha Hb.
  assert (E : constant_time_select_size_t w c a b =
              constant_time_select_size_t w c a b mod 2 ^ w).
  { apply Z.bits_inj'. intros i Hi.
    destruct (Z.ltb_spec i w) as [Hlt|Hge].
    - now rewrite Z.mod_pow2_bits_low by lia.
    - rewrite Z.mod_pow2_bits_high by lia.
      rewrite select_testbit by assumption.
      destruct (Z.ltb_spec i w); [lia|reflexivity]. }
  rewrite E. apply Z.mod_pos_bound. apply Z.pow_pos_nonneg; lia.
Qed.

Lemma select_same (c x : Z) :
  limb_ok w c -> limb_ok w x -> constant_time_select_size_t w c x x = x.
Proof.
  intros Hc Hx. apply Z.bits_inj'. intros i Hi.
  rewrite select_testbit by assumption.
  destruct (Z.ltb_spec i w) as [Hlt|Hge].
  - now destruct (Z.testbit c i).
  - symmetry. now apply limb_testbit_high.
Qed.

Lemma select_idem (c a b : Z) :
  limb_ok w c -> limb_ok w a -> limb_ok w b ->
  constant_time_select_size_t w c a (constant_time_select_size_t w c a b) =
  constant_time_select_size_t w c a b.
Proof.
  intros Hc Ha Hb. apply Z.bits_inj'. intros i Hi.
  rewrite !select_testbit by (try apply select_limb_ok; assumption).
  destruct (Z.ltb_spec i w); [|reflexivity].
  now destruct (Z.testbit c i).
Qed.

End SelectBits.

(** A conditional copy under any limb-wide condition leaves limbs. *)
Lemma copy_conditional_limbs (ws : word_size) (m : mem) (r a : addr)
      (condition : Z) :
  wf_mem (BN_BITS2 ws) m -> elem_compatible ws r a ->
  limb_ok (BN_BITS2 ws) condition ->
  wf_mem (BN_BITS2 ws) (copy_conditional ws m r a condition).
Proof.
  intros Hm Ha Hc q.
  destruct (copy_conditional_loop_spec (BN_BITS2 ws) (P384_LIMBS ws) r a condition
              Ha (P384_LIMBS ws) m 0%nat eq_refl) as [Hfr Hsel].
  fold (copy_conditional ws m r a condition) in Hfr, Hsel.
  pose proof (BN_BITS2_pos ws) as Hw.
  destruct (Nat.lt_ge_cases q r) as [Hlt|Hge]; [rewrite Hfr by lia; apply Hm|].
  destruct (Nat.lt_ge_cases q (r + P384_LIMBS ws)) as [Hin|Hout];
    [|rewrite Hfr by lia; apply Hm].
  replace q with (r + (q - r))%nat by lia. rewrite Hsel by lia.
  apply select_limb_ok; [exact Hw|exact Hc|apply Hm|apply Hm].
Qed.

(** X7: copying an element onto itself changes nothing, whatever the
    condition: no limb of the memory is altered. *)
Theorem copy_conditional_self (ws : word_size) (m : mem) (r : addr)
        (condition : Z) :
  wf_mem (BN_BITS2 ws) m -> limb_ok (BN_BITS2 ws) condition ->
  forall q, copy_conditional ws m r r condition q = m q.
Proof.
  intros Hm Hc q.
  destruct (copy_conditional_loop_spec (BN_BITS2 ws) (P384_LIMBS ws) r r condition
              (or_introl eq_refl) (P384_LIMBS ws) m 0%nat eq_refl) as [Hfr Hsel].
  fold (copy_conditional ws m r r condition) in Hfr, Hsel.
  destruct (Nat.lt_ge_cases q r) as [Hlt|Hge]; [apply Hfr; lia|].
  destruct (Nat.lt_ge_cases q (r + P384_LIMBS ws)) as [Hin|Hout];
    [|apply Hfr; lia].
  replace q with (r + (q - r))%nat by lia. rewrite Hsel by lia.
  apply select_same; [apply BN_BITS2_pos|exact Hc|apply Hm].
Qed.

(** The run of X7 under a condition that is not a mask. *)
Lemma copy_conditional_self_witness :
  copy_conditional OPENSSL_64_BIT (two_elems OPENSSL_64_BIT (p384_prime - 1) 7)
                   0%nat 0%nat 0x00ff00ff00ff00ff 3%nat
  = two_elems OPENSSL_64_BIT (p384_prime - 1) 7 3%nat.
Proof.
  apply (copy_conditional_self OPENSSL_64_BIT
           (two_elems OPENSSL_64_BIT (p384_prime - 1) 7) 0%nat
           0x00ff00ff00ff00ff).
  - apply two_elems_wf.
  - vm_compute. split; [discriminate|reflexivity].
Defined.

(** X8: a conditional copy is idempotent: repeating it with the same source
    and the same condition, mask or not, leaves the memory it produced. *)
Theorem copy_conditional_idempotent (ws : word_size) (m : mem) (r a : addr)
        (condition : Z) :
  wf_mem (BN_BITS2 ws) m -> elem_compatible ws r a ->
  limb_ok (BN_BITS2 ws) condition ->
  forall q,
    copy_conditional ws (copy_conditional ws m r a condition) r a condition q =
    copy_conditional ws m r a condition q.
Proof.
  intros Hm Ha Hc q.
  pose proof (BN_BITS2_pos ws) as Hw.
  pose proof (copy_conditional_limbs ws m r a condition Hm Ha Hc) as Hm1.
  destruct (copy_conditional_loop_spec (BN_BITS2 ws) (P384_LIMBS ws) r a condition
              Ha (P384_LIMBS ws) m 0%nat eq_refl) as [Hfr Hsel].
  fold (copy_conditional ws m r a condition) in Hfr, Hsel.
  set (m1 := copy_conditional ws m r a condition) in *.
  destruct (copy_conditional_loop_spec (BN_BITS2 ws) (P384_LIMBS ws) r a condition
              Ha (P384_LIMBS ws) m1 0%nat eq_refl) as [Hfr1 Hsel1].
  fold (copy_conditional ws m1 r a condition) in Hfr1, Hsel1.
  destruct (Nat.lt_ge_cases q r) as [Hlt|Hge]; [apply Hfr1; lia|].
  destruct (Nat.lt_ge_cases q (r + P384_LIMBS ws)) as [Hin|Hout];
    [|apply Hfr1; lia].
  replace q with (r + (q - r))%nat by lia.
  set (j := (q - r)%nat). assert (Hj : (j < P384_LIMBS ws)%nat) by (unfold j; lia).
  rewrite Hsel1 by lia.
  destruct Ha as [->|Hd].
  - apply select_same; [exact Hw|exact Hc|apply Hm1].
  - rewrite (Hfr (a + j)%nat) by lia. rewrite Hsel by lia.
    apply select_idem; [exact Hw|exact Hc|apply Hm|apply Hm].
Qed.

Lemma copy_conditional_idempotent_witness :
  copy_conditional OPENSSL_64_BIT
    (copy_conditional OPENSSL_64_BIT (two_elems OPENSSL_64_BIT (p384_prime - 1) 7)
                      6%nat 0%nat 0x00ff00ff00ff00ff)
    6%nat 0%nat 0x00ff00ff00ff00ff 6%nat
  = copy_conditional OPENSSL_64_BIT (two_elems OPENSSL_64_BIT (p384_prime - 1) 7)
                     6%nat 0%nat 0x00ff00ff00ff00ff 6%nat.
Proof.
  apply (copy_conditional_idempotent OPENSSL_64_BIT
           (two_elems OPENSSL_64_BIT (p384_prime - 1) 7) 6%nat 0%nat
           0x00ff00ff00ff00ff).
  - apply two_elems_wf.
  - right. left. vm_compute. lia.
  - vm_compute. split; [discriminate|reflexivity].
Defined.

(** X9: under a condition that is not one of the two masks the copy blends
    the two elements: bit [j] of each limb of [dest] comes from [src] where bit
    [j] of the condition is set and stays as it was where it is clear; the
    limbs written are still limbs. *)
Theorem copy_conditional_blend (ws : word_size) (m : mem) (r a : addr)
        (condition : Z) :
  wf_mem (BN_BITS2 ws) m -> elem_compatible ws r a ->
  limb_ok (BN_BITS2 ws) condition ->
  let m' := copy_conditional ws m r a condition in
  wf_mem (BN_BITS2 ws) m' /\
  forall i j, (i < P384_LIMBS ws)%nat -> 0 <= j < BN_BITS2 ws ->
    Z.testbit (m' (r + i)%nat) j =
    if Z.testbit condition j then Z.testbit (m (a + i)%nat) j
    else Z.testbit (m (r + i)%nat) j.
Proof.
  intros Hm Ha Hc. cbv zeta.
  split; [now apply copy_conditional_limbs|].
  intros i j Hi Hj.
  destruct (copy_conditional_loop_spec (BN_BITS2 ws) (P384_LIMBS ws) r a condition
              Ha (P384_LIMBS ws) m 0%nat eq_refl) as [_ Hsel].
  fold (copy_conditional ws m r a condition) in Hsel.
  rewrite Hsel by lia.
  rewrite select_testbit; [|apply BN_BITS2_pos|exact Hc|apply Hm|apply Hm|lia].
  destruct (Z.ltb_spec j (BN_BITS2 ws)); [reflexivity|lia].
Qed.

(** The run of X9 with the condition [1]: bit 0 of the first limb of [dest]
    is taken from [src], bit 1 is kept. *)
Lemma copy_conditional_blend_witness :
  Z.testbit (copy_conditional OPENSSL_64_BIT
               (two_elems OPENSSL_64_BIT (p384_prime - 1) 7) 6%nat 0%nat 1 6%nat) 0
  = Z.testbit (two_elems OPENSSL_64_BIT (p384_prime - 1) 7 0%nat) 0 /\
  Z.testbit (copy_conditional OPENSSL_64_BIT
               (two_elems OPENSSL_64_BIT (p384_prime - 1) 7) 6%nat 0%nat 1 6%nat) 1
  = Z.testbit (two_elems OPENSSL_64_BIT (p384_prime - 1) 7 6%nat) 1.
Proof.
  destruct (copy_conditional_blend OPENSSL_64_BIT
              (two_elems OPENSSL_64_BIT (p384_prime - 1) 7) 6%nat 0%nat 1)
    as [_ H].
  - apply two_elems_wf.
  - right. left. vm_compute. lia.
  - vm_compute. split; [discriminate|reflexivity].
  - split.
    + apply (H 0%nat 0); vm_compute; [lia|split; [discriminate|reflexivity]].
    + apply (H 0%nat 1); vm_compute; [lia|split; [discriminate|reflexivity]].
Defined.

(** X10: a conditional addition built from the two functions: the sum is
    formed in a temporary [t] and copied over [r] under the condition.  Under
    the true mask [r] ends as [(a + b) mod Q], under the false mask [r] keeps
    its limbs; a reduced [r] stays reduced either way. *)
Theorem elem_add_then_copy_conditional (ws : word_size) (m : mem)
        (t r a b : addr) (condition : Z) :
  wf_mem (BN_BITS2 ws) m ->
  elem_compatible ws t a -> elem_compatible ws t b -> elem_disjoint ws t r ->
  elem_value ws m a < p384_prime -> elem_value ws m b < p384_prime ->
  let m' := copy_conditional ws (GFp_p384_elem_add ws m t a b) r t condition in
  (condition = CONSTTIME_TRUE (BN_BITS2 ws) ->
   elem_value ws m' r =
   (elem_value ws m a + elem_value ws m b) mod p384_prime) /\
  (condition = CONSTTIME_FALSE -> elem ws m' r = elem ws m r) /\
  (condition = CONSTTIME_TRUE (BN_BITS2 ws) \/ condition = CONSTTIME_FALSE ->
   elem_value ws m r < p384_prime -> elem_value ws m' r < p384_prime).
Proof.
  intros Hm Ca Cb Dtr Hva Hvb. cbv zeta.
  pose proof p384_prime_bounds as HQ.
  destruct (elem_add_run ws m t a b Hm Ca Cb Hva Hvb) as (W1 & F1 & _).
  pose proof (elem_add_mod ws m t a b Hm Ca Cb Hva Hvb) as V1.
  set (m1 := GFp_p384_elem_add ws m t a b) in *.
  assert (Crt : elem_compatible ws r t).
  { unfold elem_compatible, compatible. unfold elem_disjoint in Dtr. lia. }
  destruct (copy_conditional_under_mask ws m1 r t condition W1 Crt) as [Ht Hf].
  pose proof (elem_frame ws m m1 t r F1 Dtr) as Er.
  assert (T : condition = CONSTTIME_TRUE (BN_BITS2 ws) ->
              elem_value ws (copy_conditional ws m1 r t condition) r =
              (elem_value ws m a + elem_value ws m b) mod p384_prime).
  { intros E. unfold elem_value. rewrite (Ht E). exact V1. }
  assert (F : condition = CONSTTIME_FALSE ->
              elem ws (copy_conditional ws m1 r t condition) r = elem ws m r).
  { intros E. rewrite (Hf E). exact Er. }
  split; [exact T|]. split; [exact F|].
  intros [E|E] Hr.
  - rewrite (T E). apply Z.mod_pos_bound. lia.
  - unfold elem_value. rewrite (F E). exact Hr.
Qed.

(** The run of X10 with [r] the first operand: [r += b] under the true mask. *)
Lemma elem_add_then_copy_conditional_witness :
  elem_value OPENSSL_64_BIT
    (copy_conditional OPENSSL_64_BIT
       (GFp_p384_elem_add OPENSSL_64_BIT
          (two_elems OPENSSL_64_BIT (p384_prime - 1) 5) 12%nat 0%nat 6%nat)
       0%nat 12%nat (CONSTTIME_TRUE 64)) 0%nat = 4.
Proof.
  destruct (elem_add_then_copy_conditional OPENSSL_64_BIT
              (two_elems OPENSSL_64_BIT (p384_prime - 1) 5)
              12%nat 0%nat 0%nat 6%nat (CONSTTIME_TRUE 64)) as [H _].
  - apply two_elems_wf.
  - right. left. vm_compute. lia.
  - right. left. vm_compute. lia.
  - left. vm_compute. lia.
  - vm_compute. reflexivity.
  - vm_compute. reflexivity.
  - rewrite (H eq_refl). vm_compute. reflexivity.
Defined.

(** ** Further properties of the Montgomery multiplications *)

Lemma elem_mul_mont_run (ws : word_size) (m : mem) (r a b : addr) :
  wf_mem (BN_BITS2 ws) m ->
  elem_value ws m a < p384_prime -> elem_value ws m b < p384_prime ->
  let m' := GFp_p384_elem_mul_mont ws m r a b in
  wf_mem (BN_BITS2 ws) m' /\
  (forall q, (q < r \/ r + P384_LIMBS ws <= q)%nat -> m' q = m q) /\
  elem_value ws m' r =
  (elem_value ws m a * elem_value ws m b * mont_Rinv_Q) mod p384_prime.
Proof.
  intros Hm Hva Hvb.
  exact (bn_mul_mont_run ws m r a b (Q ws) (Q_N0 ws) p384_prime mont_Rinv_Q
           Hm (Q_length ws) (Q_value ws) p384_prime_bounds (Q_N0_neg_inv ws)
           mont_Rinv_Q_inv Hva Hvb).
Qed.

Lemma scalar_mul_mont_run (ws : word_size) (m : mem) (r a b : addr) :
  wf_mem (BN_BITS2 ws) m ->
  elem_value ws m a < p384_order -> elem_value ws m b < p384_order ->
  let m' := GFp_p384_scalar_mul_mont ws m r a b in
  wf_mem (BN_BITS2 ws) m' /\
  (forall q, (q < r \/ r + P384_LIMBS ws <= q)%nat -> m' q = m q) /\
  elem_value ws m' r =
  (elem_value ws m a * elem_value ws m b * mont_Rinv_N) mod p384_order.
Proof.
  intros Hm Hva Hvb.
  exact (bn_mul_mont_run ws m r a b (N ws) (N_N0 ws) p384_order mont_Rinv_N
           Hm (N_length ws) (N_value ws) p384_order_bounds (N_N0_neg_inv ws)
           mont_Rinv_N_inv Hva Hvb).
Qed.

Section MontAlgebra.

Variables M Rinv : Z.
Hypothesis M_gt_1 : 1 < M.
Hypothesis Rinv_inv : (mont_R * Rinv) mod M = 1.

Lemma mont_one_l (v : Z) :
  0 <= v < M -> (to_mont M 1 * v * Rinv) mod M = v.
Proof.
  intros Hv.
  replace (to_mont M 1 * v * Rinv) with (v * (to_mont M 1 * Rinv)) by ring.
  rewrite <- Z.mul_mod_idemp_r by lia.
  fold (from_mont M Rinv (to_mont M 1)).
  rewrite from_mont_to_mont by (try exact Rinv_inv; lia).
  rewrite (Z.mod_small 1 M) by lia. rewrite Z.mul_1_r. apply Z.mod_small. lia.
Qed.

Lemma mont_mul_RR (v : Z) :
  (v * ((mont_R * mont_R) mod M) * Rinv) mod M = to_mont M v.
Proof.
  unfold to_mont.
  replace (v * ((mont_R * mont_R) mod M) * Rinv)
    with (((mont_R * mont_R) mod M) * (v * Rinv)) by ring.
  rewrite Z.mul_mod_idemp_l by lia.
  replace (mont_R * mont_R * (v * Rinv)) with (v * mont_R * (mont_R * Rinv))
    by ring.
  rewrite <- Z.mul_mod_idemp_r by lia. rewrite Rinv_inv, Z.mul_1_r. reflexivity.
Qed.

Lemma mont_mul_one_r (v : Z) :
  0 <= v < M -> (to_mont M v * 1 * Rinv) mod M = v.
Proof.
  intros Hv. rewrite Z.mul_1_r. fold (from_mont M Rinv (to_mont M v)).
  rewrite from_mont_to_mont by (try exact Rinv_inv; lia).
  apply Z.mod_small. lia.
Qed.

Lemma mont_mul_add_distr (x y z : Z) :
  (((x + y) mod M) * z * Rinv) mod M =
  ((x * z * Rinv) mod M + (y * z * Rinv) mod M) mod M.
Proof.
  rewrite <- Z.add_mod by lia.
  replace ((x + y) mod M * z * Rinv) with ((x + y) mod M * (z * Rinv)) by ring.
  rewrite Z.mul_mod_idemp_l by lia. f_equal. ring.
Qed.

Lemma mont_mul_assoc (x y z : Z) :
  (((x * y * Rinv) mod M) * z * Rinv) mod M =
  (x * ((y * z * Rinv) mod M) * Rinv) mod M.
Proof.
  replace ((x * y * Rinv) mod M * z * Rinv)
    with ((x * y * Rinv) mod M * (z * Rinv)) by ring.
  rewrite Z.mul_mod_idemp_l by lia.
  replace (x * ((y * z * Rinv) mod M) * Rinv)
    with (((y * z * Rinv) mod M) * (x * Rinv)) by ring.
  rewrite Z.mul_mod_idemp_l by lia. f_equal. ring.
Qed.

End MontAlgebra.

Lemma p384_prime_gt_1 : 1 < p384_prime.
Proof. vm_compute. reflexivity. Qed.

Lemma p384_order_gt_1 : 1 < p384_order.
Proof. vm_compute. reflexivity. Qed.

(** X11: the Montgomery form of [1] is neutral for
    [GFp_p384_elem_mul_mont]: multiplying a reduced element by it, on either
    side, stores the limbs of that element (with [bn_mul_mont] the Montgomery
    reduction modelled above). *)
Theorem GFp_p384_elem_mul_mont_one (ws : word_size) (m : mem) (r a b : addr) :
  wf_mem (BN_BITS2 ws) m ->
  elem_value ws m a = to_mont p384_prime 1 ->
  elem_value ws m b < p384_prime ->
  elem ws (GFp_p384_elem_mul_mont ws m r a b) r = elem ws m b /\
  elem ws (GFp_p384_elem_mul_mont ws m r b a) r = elem ws m b.
Proof.
  intros Hm Ea Hvb.
  pose proof p384_prime_gt_1 as HQ.
  pose proof (elem_value_bounds ws m b Hm) as Bb.
  assert (Hva : elem_value ws m a < p384_prime)
    by (rewrite Ea; apply Z.mod_pos_bound; lia).
  destruct (elem_mul_mont_run ws m r a b Hm Hva Hvb) as (W1 & _ & V1).
  destruct (elem_mul_mont_run ws m r b a Hm Hvb Hva) as (W2 & _ & V2).
  split; apply elem_eq_of_value; try assumption.
  - rewrite V1, Ea. apply mont_one_l; [exact HQ|exact mont_Rinv_Q_inv|lia].
  - rewrite V2, Ea.
    rewrite (Z.mul_comm (elem_value ws m b) (to_mont p384_prime 1)).
    apply mont_one_l; [exact HQ|exact mont_Rinv_Q_inv|lia].
Qed.

Lemma GFp_p384_elem_mul_mont_one_witness :
  elem OPENSSL_64_BIT
       (GFp_p384_elem_mul_mont OPENSSL_64_BIT
          (two_elems OPENSSL_64_BIT (to_mont p384_prime 1) (p384_prime - 1))
          12%nat 0%nat 6%nat) 12%nat
  = elem OPENSSL_64_BIT
         (two_elems OPENSSL_64_BIT (to_mont p384_prime 1) (p384_prime - 1)) 6%nat.
Proof.
  destruct (GFp_p384_elem_mul_mont_one OPENSSL_64_BIT
              (two_elems OPENSSL_64_BIT (to_mont p384_prime 1) (p384_prime - 1))
              12%nat 0%nat 6%nat) as [H _].
  - apply two_elems_wf.
  - vm_compute. reflexivity.
  - vm_compute. reflexivity.
  - exact H.
Defined.

(** X12: the multiplication converts in both directions: multiplying a
    reduced [x] by [R^2 mod Q] stores its Montgomery form, and multiplying
    that by the plain [1] stores the limbs of [x] again. *)
Theorem GFp_p384_elem_mul_mont_round_trip (ws : word_size) (m : mem)
        (t r x rr one : addr) :
  wf_mem (BN_BITS2 ws) m ->
  elem_value ws m x < p384_prime ->
  elem_value ws m rr = (mont_R * mont_R) mod p384_prime ->
  elem_value ws m one = 1 ->
  elem_disjoint ws t one ->
  let m1 := GFp_p384_elem_mul_mont ws m t x rr in
  let m2 := GFp_p384_elem_mul_mont ws m1 r t one in
  elem_value ws m1 t = to_mont p384_prime (elem_value ws m x) /\
  elem_value ws m2 r = elem_value ws m x /\
  (elem_disjoint ws t x -> elem_disjoint ws r x -> elem ws m2 r = elem ws m2 x).
Proof.
  intros Hm Hvx Err Eone Dt. cbv zeta.
  pose proof p384_prime_gt_1 as HQ.
  pose proof (elem_value_bounds ws m x Hm) as Bx.
  assert (Hrr : elem_value ws m rr < p384_prime)
    by (rewrite Err; apply Z.mod_pos_bound; lia).
  destruct (elem_mul_mont_run ws m t x rr Hm Hvx Hrr) as (W1 & F1 & V1).
  set (m1 := GFp_p384_elem_mul_mont ws m t x rr) in *.
  assert (T : elem_value ws m1 t = to_mont p384_prime (elem_value ws m x)).
  { rewrite V1, Err. apply mont_mul_RR; [exact HQ|exact mont_Rinv_Q_inv]. }
  pose proof (elem_value_frame ws m m1 t one F1 Dt) as E1.
  assert (Ht : elem_value ws m1 t < p384_prime)
    by (rewrite T; apply Z.mod_pos_bound; lia).
  assert (Ho : elem_value ws m1 one < p384_prime) by (rewrite E1, Eone; lia).
  destruct (elem_mul_mont_run ws m1 r t one W1 Ht Ho) as (W2 & F2 & V2).
  set (m2 := GFp_p384_elem_mul_mont ws m1 r t one) in *.
  assert (V : elem_value ws m2 r = elem_value ws m x).
  { rewrite V2, T, E1, Eone.
    apply mont_mul_one_r; [exact HQ|exact mont_Rinv_Q_inv|lia]. }
  split; [exact T|]. split; [exact V|].
  intros Dtx Drx. apply elem_eq_of_value; try assumption.
  rewrite V. rewrite (elem_value_frame ws m1 m2 r x F2 Drx).
  rewrite (elem_value_frame ws m m1 t x F1 Dtx). reflexivity.
Qed.

(** The run of X12 on [x = Q - 1], with [R^2 mod Q] and [1] next to it, the
    temporary at address 18 and the result at 24. *)
Lemma GFp_p384_elem_mul_mont_round_trip_witness :
  elem_value OPENSSL_64_BIT
    (GFp_p384_elem_mul_mont OPENSSL_64_BIT
       (GFp_p384_elem_mul_mont OPENSSL_64_BIT
          (three_elems OPENSSL_64_BIT (p384_prime - 1)
                       ((mont_R * mont_R) mod p384_prime) 1)
          18%nat 0%nat 6%nat)
       24%nat 18%nat 12%nat) 24%nat
  = p384_prime - 1.
Proof.
  destruct (GFp_p384_elem_mul_mont_round_trip OPENSSL_64_BIT
              (three_elems OPENSSL_64_BIT (p384_prime - 1)
                           ((mont_R * mont_R) mod p384_prime) 1)
              18%nat 24%nat 0%nat 6%nat 12%nat) as (_ & H & _).
  - apply three_elems_wf.
  - vm_compute. reflexivity.
  - vm_compute. reflexivity.
  - vm_compute. reflexivity.
  - left. vm_compute. lia.
  - rewrite H. vm_compute. reflexivity.
Defined.

(** X13: the multiplication distributes over the addition: [(a + b) * c],
    formed through a temporary [t], and [a * c + b * c], formed through
    temporaries [u] and [v], leave the same limbs in [r]. *)
Theorem GFp_p384_elem_mul_mont_add_distr (ws : word_size) (m : mem)
        (t u v r a b c : addr) :
  wf_mem (BN_BITS2 ws) m ->
  elem_value ws m a < p384_prime -> elem_value ws m b < p384_prime ->
  elem_value ws m c < p384_prime ->
  elem_compatible ws t a -> elem_compatible ws t b -> elem_disjoint ws t c ->
  elem_disjoint ws u b -> elem_disjoint ws u c -> elem_disjoint ws v u ->
  elem_compatible ws r u -> elem_compatible ws r v ->
  let sum_first :=
    GFp_p384_elem_mul_mont ws (GFp_p384_elem_add ws m t a b) r t c in
  let products_first :=
    GFp_p384_elem_add ws
      (GFp_p384_elem_mul_mont ws (GFp_p384_elem_mul_mont ws m u a c) v b c)
      r u v in
  elem ws sum_first r = elem ws products_first r.
Proof.
  intros Hm Hva Hvb Hvc Cta Ctb Dtc Dub Duc Dvu Cru Crv. cbv zeta.
  pose proof p384_prime_gt_1 as HQ.
  (* the sum first *)
  destruct (elem_add_run ws m t a b Hm Cta Ctb Hva Hvb) as (W1 & F1 & _).
  pose proof (elem_add_mod ws m t a b Hm Cta Ctb Hva Hvb) as V1.
  set (m1 := GFp_p384_elem_add ws m t a b) in *.
  pose proof (elem_value_frame ws m m1 t c F1 Dtc) as E1c.
  assert (B1 : elem_value ws m1 t < p384_prime)
    by (rewrite V1; apply Z.mod_pos_bound; lia).
  destruct (elem_mul_mont_run ws m1 r t c W1 B1 ltac:(rewrite E1c; exact Hvc))
    as (WL & _ & VL).
  rewrite V1, E1c in VL.
  (* the products first *)
  destruct (elem_mul_mont_run ws m u a c Hm Hva Hvc) as (W2 & F2 & V2).
  set (m2 := GFp_p384_elem_mul_mont ws m u a c) in *.
  pose proof (elem_value_frame ws m m2 u b F2 Dub) as E2b.
  pose proof (elem_value_frame ws m m2 u c F2 Duc) as E2c.
  destruct (elem_mul_mont_run ws m2 v b c W2
              ltac:(rewrite E2b; exact Hvb) ltac:(rewrite E2c; exact Hvc))
    as (W3 & F3 & V3).
  set (m3 := GFp_p384_elem_mul_mont ws m2 v b c) in *.
  pose proof (elem_value_frame ws m2 m3 v u F3 Dvu) as E3u.
  rewrite E2b, E2c in V3. rewrite V2 in E3u.
  assert (B3u : elem_value ws m3 u < p384_prime)
    by (rewrite E3u; apply Z.mod_pos_bound; lia).
  assert (B3v : elem_value ws m3 v < p384_prime)
    by (rewrite V3; apply Z.mod_pos_bound; lia).
  destruct (elem_add_run ws m3 r u v W3 Cru Crv B3u B3v) as (WR & _).
  pose proof (elem_add_mod ws m3 r u v W3 Cru Crv B3u B3v) as VR.
  rewrite E3u, V3 in VR.
  apply elem_eq_of_value; try assumption.
  rewrite VL, VR. apply mont_mul_add_distr. exact HQ.
Qed.

(** The run of X13 on [Q - 1], [Q - 2], [Q - 3] at addresses 0, 6, 12, with
    temporaries at 18, 24, 30 and the result at 36. *)
Lemma GFp_p384_elem_mul_mont_add_distr_witness :
  elem OPENSSL_64_BIT
       (GFp_p384_elem_mul_mont OPENSSL_64_BIT
          (GFp_p384_elem_add OPENSSL_64_BIT
             (three_elems OPENSSL_64_BIT (p384_prime - 1) (p384_prime - 2)
                          (p384_prime - 3)) 18%nat 0%nat 6%nat)
          36%nat 18%nat 12%nat) 36%nat
  = elem OPENSSL_64_BIT
         (GFp_p384_elem_add OPENSSL_64_BIT
            (GFp_p384_elem_mul_mont OPENSSL_64_BIT
               (GFp_p384_elem_mul_mont OPENSSL_64_BIT
                  (three_elems OPENSSL_64_BIT (p384_prime - 1) (p384_prime - 2)
                               (p384_prime - 3)) 24%nat 0%nat 12%nat)
               30%nat 6%nat 12%nat)
            36%nat 24%nat 30%nat) 36%nat.
Proof.
  apply (GFp_p384_elem_mul_mont_add_distr OPENSSL_64_BIT
           (three_elems OPENSSL_64_BIT (p384_prime - 1) (p384_prime - 2)
                        (p384_prime - 3))
           18%nat 24%nat 30%nat 36%nat 0%nat 6%nat 12%nat).
  - apply three_elems_wf.
  - vm_compute. reflexivity.
  - vm_compute. reflexivity.
  - vm_compute. reflexivity.
  - right. left. vm_compute. lia.
  - right. left. vm_compute. lia.
  - left. vm_compute. lia.
  - left. vm_compute. lia.
  - left. vm_compute. lia.
  - left. vm_compute. lia.
  - right. left. vm_compute. lia.
  - right. left. vm_compute. lia.
Defined.

(** X14: [GFp_p384_elem_mul_mont] is associative: [(a * b) * c] and
    [a * (b * c)], each formed through a temporary [t], leave the same limbs
    in [r]. *)
Theorem GFp_p384_elem_mul_mont_assoc (ws : word_size) (m : mem)
        (t r a b c : addr) :
  wf_mem (BN_BITS2 ws) m ->
  elem_value ws m a < p384_prime -> elem_value ws m b < p384_prime ->
  elem_value ws m c < p384_prime ->
  elem_disjoint ws t a -> elem_disjoint ws t c ->
  let ab_c :=
    GFp_p384_elem_mul_mont ws (GFp_p384_elem_mul_mont ws m t a b) r t c in
  let a_bc :=
    GFp_p384_elem_mul_mont ws (GFp_p384_elem_mul_mont ws m t b c) r a t in
  elem ws ab_c r = elem ws a_bc r.
Proof.
  intros Hm Hva Hvb Hvc Dta Dtc. cbv zeta.
  pose proof p384_prime_gt_1 as HQ.
  destruct (elem_mul_mont_run ws m t a b Hm Hva Hvb) as (W1 & F1 & V1).
  set (m1 := GFp_p384_elem_mul_mont ws m t a b) in *.
  pose proof (elem_value_frame ws m m1 t c F1 Dtc) as E1.
  assert (B1 : elem_value ws m1 t < p384_prime)
    by (rewrite V1; apply Z.mod_pos_bound; lia).
  destruct (elem_mul_mont_run ws m1 r t c W1 B1 ltac:(rewrite E1; exact Hvc))
    as (WL & _ & VL).
  rewrite V1, E1 in VL.
  destruct (elem_mul_mont_run ws m t b c Hm Hvb Hvc) as (W2 & F2 & V2).
  set (m2 := GFp_p384_elem_mul_mont ws m t b c) in *.
  pose proof (elem_value_frame ws m m2 t a F2 Dta) as E2.
  assert (B2 : elem_value ws m2 t < p384_prime)
    by (rewrite V2; apply Z.mod_pos_bound; lia).
  destruct (elem_mul_mont_run ws m2 r a t W2 ltac:(rewrite E2; exact Hva) B2)
    as (WR & _ & VR).
  rewrite V2, E2 in VR.
  apply elem_eq_of_value; try assumption.
  rewrite VL, VR. apply mont_mul_assoc. exact HQ.
Qed.

Lemma GFp_p384_elem_mul_mont_assoc_witness :
  elem OPENSSL_64_BIT
       (GFp_p384_elem_mul_mont OPENSSL_64_BIT
          (GFp_p384_elem_mul_mont OPENSSL_64_BIT
             (three_elems OPENSSL_64_BIT (p384_prime - 1) (p384_prime - 2)
                          (p384_prime - 3)) 18%nat 0%nat 6%nat)
          24%nat 18%nat 12%nat) 24%nat
  = elem OPENSSL_64_BIT
         (GFp_p384_elem_mul_mont OPENSSL_64_BIT
            (GFp_p384_elem_mul_mont OPENSSL_64_BIT
               (three_elems OPENSSL_64_BIT (p384_prime - 1) (p384_prime - 2)
                            (p384_prime - 3)) 18%nat 6%nat 12%nat)
            24%nat 0%nat 18%nat) 24%nat.
Proof.
  apply (GFp_p384_elem_mul_mont_assoc OPENSSL_64_BIT
           (three_elems OPENSSL_64_BIT (p384_prime - 1) (p384_prime - 2)
                        (p384_prime - 3))
           18%nat 24%nat 0%nat 6%nat 12%nat).
  - apply three_elems_wf.
  - vm_compute. reflexivity.
  - vm_compute. reflexivity.
  - vm_compute. reflexivity.
  - left. vm_compute. lia.
  - left. vm_compute. lia.
Defined.

(** X15: the Montgomery form of [1] modulo the group order is neutral for
    [GFp_p384_scalar_mul_mont]: multiplying a reduced scalar by it, on either
    side, stores the limbs of that scalar; it is not the Montgomery form of
    [1] modulo [Q]. *)
Theorem GFp_p384_scalar_mul_mont_one (ws : word_size) (m : mem) (r a b : addr) :
  wf_mem (BN_BITS2 ws) m ->
  elem_value ws m a = to_mont p384_order 1 ->
  elem_value ws m b < p384_order ->
  elem ws (GFp_p384_scalar_mul_mont ws m r a b) r = elem ws m b /\
  elem ws (GFp_p384_scalar_mul_mont ws m r b a) r = elem ws m b /\
  to_mont p384_order 1 <> to_mont p384_prime 1.
Proof.
  intros Hm Ea Hvb.
  pose proof p384_order_gt_1 as HN.
  pose proof (elem_value_bounds ws m b Hm) as Bb.
  assert (Hva : elem_value ws m a < p384_order)
    by (rewrite Ea; apply Z.mod_pos_bound; lia).
  destruct (scalar_mul_mont_run ws m r a b Hm Hva Hvb) as (W1 & _ & V1).
  destruct (scalar_mul_mont_run ws m r b a Hm Hvb Hva) as (W2 & _ & V2).
  split; [|split].
  - apply elem_eq_of_value; try assumption.
    rewrite V1, Ea. apply mont_one_l; [exact HN|exact mont_Rinv_N_inv|lia].
  - apply elem_eq_of_value; try assumption.
    rewrite V2, Ea.
    rewrite (Z.mul_comm (elem_value ws m b) (to_mont p384_order 1)).
    apply mont_one_l; [exact HN|exact mont_Rinv_N_inv|lia].
  - vm_compute. discriminate.
Qed.

Lemma GFp_p384_scalar_mul_mont_one_witness :
  elem OPENSSL_64_BIT
       (GFp_p384_scalar_mul_mont OPENSSL_64_BIT
          (two_elems OPENSSL_64_BIT (to_mont p384_order 1) (p384_order - 1))
          12%nat 0%nat 6%nat) 12%nat
  = elem OPENSSL_64_BIT
         (two_elems OPENSSL_64_BIT (to_mont p384_order 1) (p384_order - 1)) 6%nat.
Proof.
  destruct (GFp_p384_scalar_mul_mont_one OPENSSL_64_BIT
              (two_elems OPENSSL_64_BIT (to_mont p384_order 1) (p384_order - 1))
              12%nat 0%nat 6%nat) as [H _].
  - apply two_elems_wf.
  - vm_compute. reflexivity.
  - vm_compute. reflexivity.
  - exact H.
Defined.

(** ** Independence of the limb width *)

(** X16: the build for 64-bit limbs and the build for 32-bit limbs compute the
    same elements: on memories that hold the same two values, the addition
    stores the same value in both, and so does each multiplication on reduced
    operands. *)
Theorem p384_limb_width_independent (ws1 ws2 : word_size) (m1 m2 : mem)
        (r1 a1 b1 r2 a2 b2 : addr) :
  wf_mem (BN_BITS2 ws1) m1 -> wf_mem (BN_BITS2 ws2) m2 ->
  elem_value ws1 m1 a1 = elem_value ws2 m2 a2 ->
  elem_value ws1 m1 b1 = elem_value ws2 m2 b2 ->
  (elem_compatible ws1 r1 a1 -> elem_compatible ws1 r1 b1 ->
   elem_compatible ws2 r2 a2 -> elem_compatible ws2 r2 b2 ->
   elem_value ws1 (GFp_p384_elem_add ws1 m1 r1 a1 b1) r1 =
   elem_value ws2 (GFp_p384_elem_add ws2 m2 r2 a2 b2) r2) /\
  (elem_value ws1 m1 a1 < p384_prime -> elem_value ws1 m1 b1 < p384_prime ->
   elem_value ws1 (GFp_p384_elem_mul_mont ws1 m1 r1 a1 b1) r1 =
   elem_value ws2 (GFp_p384_elem_mul_mont ws2 m2 r2 a2 b2) r2) /\
  (elem_value ws1 m1 a1 < p384_order -> elem_value ws1 m1 b1 < p384_order ->
   elem_value ws1 (GFp_p384_scalar_mul_mont ws1 m1 r1 a1 b1) r1 =
   elem_value ws2 (GFp_p384_scalar_mul_mont ws2 m2 r2 a2 b2) r2).
Proof.
  intros W1 W2 Ea Eb. split; [|split].
  - intros Ca1 Cb1 Ca2 Cb2.
    destruct (elem_add_total ws1 m1 r1 a1 b1 W1 Ca1 Cb1) as (_ & _ & V1).
    destruct (elem_add_total ws2 m2 r2 a2 b2 W2 Ca2 Cb2) as (_ & _ & V2).
    cbv zeta in V1, V2. rewrite V1, V2, Ea, Eb. reflexivity.
  - intros Ha Hb.
    destruct (elem_mul_mont_run ws1 m1 r1 a1 b1 W1 Ha Hb) as (_ & _ & V1).
    destruct (elem_mul_mont_run ws2 m2 r2 a2 b2 W2
                ltac:(rewrite <- Ea; exact Ha) ltac:(rewrite <- Eb; exact Hb))
      as (_ & _ & V2).
    rewrite V1, V2, Ea, Eb. reflexivity.
  - intros Ha Hb.
    destruct (scalar_mul_mont_run ws1 m1 r1 a1 b1 W1 Ha Hb) as (_ & _ & V1).
    destruct (scalar_mul_mont_run ws2 m2 r2 a2 b2 W2
                ltac:(rewrite <- Ea; exact Ha) ltac:(rewrite <- Eb; exact Hb))
      as (_ & _ & V2).
    rewrite V1, V2, Ea, Eb. reflexivity.
Qed.

(** The run of X16 on [Q - 1] and [5], held as 6 limbs of 64 bits and as 12
    limbs of 32 bits. *)
Lemma p384_limb_width_independent_witness :
  elem_value OPENSSL_64_BIT
    (GFp_p384_elem_add OPENSSL_64_BIT
       (two_elems OPENSSL_64_BIT (p384_prime - 1) 5) 12%nat 0%nat 6%nat) 12%nat
  = elem_value OPENSSL_32_BIT
      (GFp_p384_elem_add OPENSSL_32_BIT
         (two_elems OPENSSL_32_BIT (p384_prime - 1) 5) 24%nat 0%nat 12%nat) 24%nat.
Proof.
  destruct (p384_limb_width_independent OPENSSL_64_BIT OPENSSL_32_BIT
              (two_elems OPENSSL_64_BIT (p384_prime - 1) 5)
              (two_elems OPENSSL_32_BIT (p384_prime - 1) 5)
              12%nat 0%nat 6%nat 24%nat 0%nat 12%nat) as (H & _).
  - apply two_elems_wf.
  - apply two_elems_wf.
  - vm_compute. reflexivity.
  - vm_compute. reflexivity.
  - apply H; right; left; vm_compute; lia.
Defined.
